(** * Sofia MVP: the ingestion and retrieval core, embedded in Rocq

    The development follows the TypeScript sources of the repository:

    - [chunkText] and [ingest] (the embedding-optimization skill),
    - [generateEmbedding] and [findRelevantContent] (lib/ai/embedding.ts),
    - the [conversations] and [messages] tables (Drizzle schema and the
      SQL migration that adds [messages_conversation_id_fkey]).

    JavaScript strings are sequences of UTF-16 code units, numbers that
    index strings are integers, the embeddings table is a list of rows in
    insertion order, and the two chat tables are finite maps keyed by
    their primary key. *)

From Stdlib Require Import ZArith NArith List Ascii QArith Lia Permutation Sorted.
From stdpp Require Import base gmap strings list sorting pretty.
Import ListNotations.

(** ** JavaScript strings *)

Module Js.

(** A string value is the list of its UTF-16 code units. *)
Definition code_unit := N.
Definition jsstring := list code_unit.

(** Code units of an ASCII literal, to write examples. *)
Fixpoint of_string (s : string) : jsstring :=
  match s with
  | EmptyString => []
  | String c s' => N_of_ascii c :: of_string s'
  end.

(** [WhiteSpace] and [LineTerminator] of ECMAScript, the code points
    that [String.prototype.trim] strips: TAB, VT, FF, SP, NBSP, ZWNBSP,
    the Unicode space separators, LF, CR, LS and PS. *)
Definition is_whitespace (c : code_unit) : bool :=
  ((9 <=? c) && (c <=? 13) || (c =? 32) || (c =? 160) || (c =? 5760)
   || (8192 <=? c) && (c <=? 8202) || (c =? 8232) || (c =? 8233)
   || (c =? 8239) || (c =? 8287) || (c =? 12288) || (c =? 65279))%N.

Fixpoint trimStart (s : jsstring) : jsstring :=
  match s with
  | [] => []
  | c :: s' => if is_whitespace c then trimStart s' else s
  end.

Definition trimEnd (s : jsstring) : jsstring := rev (trimStart (rev s)).

(** [s.trim()] *)
Definition trim (s : jsstring) : jsstring := trimEnd (trimStart s).

(** The index clamping of [String.prototype.slice]: a negative index
    counts from the end, and every index is clamped to [0, len]. *)
Definition clamp_index (len k : Z) : Z :=
  if (k <? 0)%Z then Z.max (len + k) 0 else Z.min k len.

(** [s.slice(start, end)] for integer arguments. *)
Definition slice (s : jsstring) (start end_ : Z) : jsstring :=
  let len := Z.of_nat (length s) in
  let from := clamp_index len start in
  let to := clamp_index len end_ in
  take (Z.to_nat (to - from)) (drop (Z.to_nat from) s).

(** [Boolean(s)] on a string: only the empty string is falsy. *)
Definition Boolean (s : jsstring) : bool :=
  match s with
  | [] => false
  | _ :: _ => true
  end.

(** [s.replaceAll("\n", " ")] *)
Definition replaceAll_newline_space (s : jsstring) : jsstring :=
  map (fun c => if (c =? 10)%N then 32%N else c) s.

(** Decimal digits of a number, as template literals print it. *)
Definition of_nat (n : nat) : jsstring := of_string (pretty n).

(** A number holds an integer exactly up to [2 ^ 53] in magnitude. A
    larger integer is rounded to the nearest number, which is a multiple
    of the power of two that leaves 53 binary digits, and to the one
    with an even multiplier when two are equally near. *)
Definition round_to_number (z : Z) : Z :=
  let a := Z.abs z in
  if (a <=? 2 ^ 53)%Z then z
  else
    let ulp := (2 ^ (Z.log2 a - 52))%Z in
    let q := (a / ulp)%Z in
    let r := (a mod ulp)%Z in
    let q' := if (2 * r <? ulp)%Z then q
              else if (ulp <? 2 * r)%Z then (q + 1)%Z
              else if Z.even q then q else (q + 1)%Z in
    (Z.sgn z * (q' * ulp))%Z.

(** [a + b] on integer-valued numbers, short of the overflow to
    [Infinity]. *)
Definition number_add (a b : Z) : Z := round_to_number (a + b).

(** A string begins (ends) with a white space code unit. *)
Definition starts_with_whitespace (s : jsstring) : bool :=
  match s with
  | [] => false
  | c :: _ => is_whitespace c
  end.

Definition ends_with_whitespace (s : jsstring) : bool :=
  starts_with_whitespace (rev s).

(** A string that is empty or holds white space only. *)
Definition blank (w : jsstring) : bool := forallb is_whitespace w.

(** [t] occurs in [s] as a contiguous substring. *)
Definition substring_of (t s : jsstring) : Prop :=
  exists pre suf, s = pre ++ t ++ suf.

End Js.

Import Js.

(** ** Chunking *)

Module Chunking.

(** The [while] loop of [chunkText]. [i] is the loop variable, [chunks]
    the array built so far; the loop has no bound of its own, so the
    model counts iterations down from [fuel] and answers [None] when the
    loop is still running after [fuel] tests of its condition. *)
Fixpoint chunk_loop (fuel : nat) (text : jsstring) (size overlap : Z)
    (i : Z) (chunks : list jsstring) : option (list jsstring) :=
  match fuel with
  | O => None
  | S fuel' =>
      if (i <? Z.of_nat (length text))%Z then
        let chunk := slice text i (i + size) in
        chunk_loop fuel' text size overlap (i + (size - overlap))
                   (chunks ++ [trim chunk])
      else Some chunks
  end.

(** [chunkText(text, size, overlap)] *)
Definition chunkText_fuel (fuel : nat) (text : jsstring) (size overlap : Z)
  : option (list jsstring) :=
  match chunk_loop fuel text size overlap 0 [] with
  | Some chunks => Some (List.filter Boolean chunks)
  | None => None
  end.

(** The default parameters [size = 900] and [overlap = 100]. *)
Definition default_size : Z := 900.
Definition default_overlap : Z := 100.

(** [chunkText] returns [chunks]: the loop ends within some number of
    iterations. *)
Definition chunkText_returns (text : jsstring) (size overlap : Z)
    (chunks : list jsstring) : Prop :=
  exists fuel, chunkText_fuel fuel text size overlap = Some chunks.

(** [chunkText] never returns. *)
Definition chunkText_diverges (text : jsstring) (size overlap : Z) : Prop :=
  forall fuel, chunkText_fuel fuel text size overlap = None.

(** The number of times the loop body runs from [i] on, for a positive
    step: the ceiling of [(len - i) / step]. *)
Definition iterations (len i step : Z) : nat :=
  Z.to_nat ((len - i + step - 1) / step).

(** The window the loop cuts at its [k]-th iteration, before trimming. *)
Definition window (text : jsstring) (size overlap : Z) (k : nat) : jsstring :=
  let start := (Z.of_nat k * (size - overlap))%Z in
  slice text start (start + size).

(** All windows of a text, in order. *)
Definition windows (text : jsstring) (size overlap : Z) : list jsstring :=
  map (window text size overlap)
      (seq 0 (iterations (Z.of_nat (length text)) 0 (size - overlap))).

(** Reassembly of a text from its windows: keep of every window but the
    last the part that the next window does not repeat, which is its
    first [step] code units, and keep the last window whole. *)
Fixpoint reassemble (step : nat) (ws : list jsstring) : jsstring :=
  match ws with
  | [] => []
  | w :: ws' =>
      match ws' with
      | [] => w
      | _ :: _ => take step w ++ reassemble step ws'
      end
  end.

(** [s.split(".")] for a one-unit separator: the pieces between the
    separators, the empty ones included. *)
Fixpoint split_on (sep : code_unit) (s : jsstring) : list jsstring :=
  match s with
  | [] => [[]]
  | c :: s' =>
      if (c =? sep)%N then [] :: split_on sep s'
      else match split_on sep s' with
           | piece :: pieces => (c :: piece) :: pieces
           | [] => [[c]]
           end
  end.

(** The code unit of the full stop. *)
Definition full_stop : code_unit := 46%N.

(** [generateChunks(input)], the sentence chunker of the embedding
    module: [input.trim().split(".").filter((i) => i !== "")]. *)
Definition generateChunks (input : jsstring) : list jsstring :=
  List.filter Boolean (split_on full_stop (trim input)).

End Chunking.

Import Chunking.

(** ** Ingestion *)

Module Ingestion.

(** An embedding vector, an array of numbers. *)
Definition vector := list Q.

(** A value passed to [db.insert(embeddings).values]. [embedding] is
    [vectors[idx]], undefined when [vectors] is shorter than [chunks]. *)
Record embedding_row := {
  id : jsstring;
  resourceId : jsstring;
  content : jsstring;
  embedding : option vector;
  title : option jsstring;
  order : option Z;
  sourceUrl : option jsstring
}.

(** The argument object of [ingest]; the fields marked [?] are optional,
    and [order] is an integer-valued number. *)
Record ingest_args := {
  arg_resourceId : jsstring;
  arg_text : jsstring;
  arg_title : option jsstring;
  arg_order : option Z;
  arg_sourceUrl : option jsstring
}.

(** What [await embedMany(chunks)] does: it throws, or yields vectors. *)
Inductive embed_outcome :=
  | EmbedRejects
  | EmbedResolves (vectors : list vector).

(** What [await db.insert(embeddings).values(rows)] does: it commits all
    rows, or it throws; [kept] is the number of rows of the statement
    that the storage engine leaves in the table when it throws, which is
    0 for an engine that executes a multi-row insert atomically. *)
Inductive insert_outcome :=
  | InsertResolves
  | InsertRejects (kept : nat).

(** The collaborators of [ingest] that are outside the repository: the
    embedding service, the storage engine and the id generator, each
    asked at a given attempt of the retry loop. *)
Record environment := {
  embedMany : nat -> list jsstring -> embed_outcome;
  db_insert : nat -> list embedding_row -> insert_outcome;
  nanoid : nat -> nat -> jsstring
}.

(** What the function does to the outside, in order. *)
Inductive event :=
  | CallEmbedMany (attempt : nat)
  | CallInsert (attempt : nat) (rows : list embedding_row)
  | ConsoleError (message : jsstring)
  | Sleep (ms : Z).

(** The embeddings table, in insertion order, and the trace of events. *)
Record state := {
  table : list embedding_row;
  trace : list event
}.

(** How a call of [ingest] ends. *)
Inductive outcome :=
  | Resolved (success : bool) (chunksInserted : nat)
  | Rejected (message : jsstring)
  | ResolvedUndefined.

Definition maxAttempts : nat := 3.
Definition baseDelayMs : Z := 1000.

(** [x || null] on an optional string: undefined and the empty string
    both give null. *)
Definition or_null (x : option jsstring) : option jsstring :=
  match x with
  | Some ((_ :: _) as s) => Some s
  | _ => None
  end.

(** The callback of [chunks.map] that builds one row. *)
Definition make_row (env : environment) (args : ingest_args)
    (vectors : list vector) (attempt : nat) (idx : nat) (chunk : jsstring)
  : embedding_row :=
  {| id := nanoid env attempt idx;
     resourceId := arg_resourceId args;
     content := chunk;
     embedding := vectors !! idx;
     title := or_null (arg_title args);
     order := match arg_order args with
              | Some o => Some (number_add o (Z.of_nat idx))
              | None => None
              end;
     sourceUrl := or_null (arg_sourceUrl args) |}.

Definition make_rows (env : environment) (args : ingest_args)
    (vectors : list vector) (attempt : nat) (chunks : list jsstring)
  : list embedding_row :=
  imap (make_row env args vectors attempt) chunks.

(** [`[ingest] Tentativa ${attempt}/${maxAttempts} falhou:`] *)
Definition attempt_failed_message (attempt : nat) : jsstring :=
  of_string "[ingest] Tentativa " ++ of_nat attempt ++ of_string "/"
  ++ of_nat maxAttempts ++ of_string " falhou:".

(** [`Falha ao inserir embeddings após ${maxAttempts} tentativas`];
    243 is the code unit of o with acute accent. *)
Definition failure_message : jsstring :=
  of_string "Falha ao inserir embeddings ap" ++ [243%N] ++ of_string "s "
  ++ of_nat maxAttempts ++ of_string " tentativas".

(** [baseDelayMs * Math.pow(2, attempt - 1)] *)
Definition backoff_delay (attempt : nat) : Z :=
  (baseDelayMs * 2 ^ (Z.of_nat attempt - 1))%Z.

Definition log (e : list event) (st : state) : state :=
  {| table := table st; trace := trace st ++ e |}.

Definition write (rows : list embedding_row) (st : state) : state :=
  {| table := table st ++ rows; trace := trace st |}.

(** The body of the [try] block at one attempt: [inl] when it reaches
    the [return], [inr] when it throws. *)
Definition try_block (env : environment) (args : ingest_args)
    (chunks : list jsstring) (attempt : nat) (st : state)
  : state + state :=
  let st1 := log [CallEmbedMany attempt] st in
  match embedMany env attempt chunks with
  | EmbedRejects => inr st1
  | EmbedResolves vectors =>
      let rows := make_rows env args vectors attempt chunks in
      let st2 := log [CallInsert attempt rows] st1 in
      match db_insert env attempt rows with
      | InsertResolves => inl (write rows st2)
      | InsertRejects kept => inr (write (take kept rows) st2)
      end
  end.

(** The [for] loop: [remaining] counts the attempts left, so the loop
    condition [attempt <= maxAttempts] is [remaining > 0]. *)
Fixpoint retry_loop (env : environment) (args : ingest_args)
    (chunks : list jsstring) (remaining attempt : nat) (st : state)
  : outcome * state :=
  match remaining with
  | O => (ResolvedUndefined, st)
  | S remaining' =>
      match try_block env args chunks attempt st with
      | inl st' => (Resolved true (length chunks), st')
      | inr st' =>
          let st1 := log [ConsoleError (attempt_failed_message attempt)] st' in
          if Nat.eqb attempt maxAttempts then (Rejected failure_message, st1)
          else
            let st2 := log [Sleep (backoff_delay attempt)] st1 in
            retry_loop env args chunks remaining' (S attempt) st2
      end
  end.

(** [ingest({resourceId, text, title, order, sourceUrl})]. The text is
    chunked with the default parameters; [None] would mean that
    [chunkText] did not return. *)
Definition ingest (env : environment) (args : ingest_args) (st : state)
  : option (outcome * state) :=
  match chunkText_fuel (S (length (arg_text args))) (arg_text args)
                       default_size default_overlap with
  | None => None
  | Some chunks => Some (retry_loop env args chunks maxAttempts 1 st)
  end.

Arguments failure_message : simpl never.
Arguments attempt_failed_message : simpl never.
Arguments backoff_delay : simpl never.

(** The state before anything was written or done, and a state extended
    by the rows and events of a later run. *)
Definition empty_state : state := {| table := []; trace := [] |}.

Definition extend (st d : state) : state :=
  {| table := table st ++ table d; trace := trace st ++ trace d |}.

(** Projections of a trace. *)
Definition sleeps (es : list event) : list Z :=
  omap (fun e => match e with Sleep ms => Some ms | _ => None end) es.

Definition embed_calls (es : list event) : list nat :=
  omap (fun e => match e with CallEmbedMany a => Some a | _ => None end) es.


(** A storage engine that executes every multi-row insert as one atomic
    statement: a rejected insert leaves no row behind. *)
Definition atomic_inserts (env : environment) : Prop :=
  forall attempt rows,
    db_insert env attempt rows = InsertResolves
    \/ db_insert env attempt rows = InsertRejects 0.

(** Stand-ins for the collaborators, for the scenarios of the
    specification: ids that name the attempt and the index, and one
    vector per chunk. *)
Definition scenario_ids (attempt idx : nat) : jsstring :=
  of_string "id-" ++ of_nat attempt ++ of_string "-" ++ of_nat idx.

Definition scenario_vectors (chunks : list jsstring) : list vector :=
  map (fun _ => [1%Q]) chunks.

(** The embedding service fails on the attempts before the [k]-th and
    the store commits every insert. *)
Definition embedding_fails_before (k : nat) : environment :=
  {| embedMany := fun a chunks =>
       if (a <? k)%nat then EmbedRejects
       else EmbedResolves (scenario_vectors chunks);
     db_insert := fun _ _ => InsertResolves;
     nanoid := scenario_ids |}.

(** The embedding service answers and the store rejects the inserts of
    the attempts before the [k]-th, each time leaving [kept] rows. *)
Definition insert_fails_before (k kept : nat) : environment :=
  {| embedMany := fun _ chunks => EmbedResolves (scenario_vectors chunks);
     db_insert := fun a _ =>
       if (a <? k)%nat then InsertRejects kept else InsertResolves;
     nanoid := scenario_ids |}.

Definition scenario_args (text : jsstring) : ingest_args :=
  {| arg_resourceId := of_string "r1";
     arg_text := text;
     arg_title := None;
     arg_order := Some 0%Z;
     arg_sourceUrl := None |}.

End Ingestion.

(** ** Retrieval *)

Module Retrieval.

Import Ingestion.

(** A row of the embeddings table as the query reads it. *)
Record embeddings_row := {
  row_content : jsstring;
  row_embedding : vector
}.

(** The shape selected by the query: [{ name, similarity }]. *)
Record result_row := {
  name : jsstring;
  similarity : Q
}.

(** [gt(x, y)] of the query builder, [x > y]. *)
Definition gt (x y : Q) : bool := negb (Qle_bool x y).

(** The constants written in the query. *)
Definition threshold : Q := 3 # 10.
Definition limit : nat := 4.

(** [desc(t.similarity)]: [a] may stand before [b]. *)
Definition desc (a b : result_row) : Prop :=
  (similarity b <= similarity a)%Q.

(** Two rows of equal similarity. *)
Definition tie (a b : result_row) : Prop := (similarity a == similarity b)%Q.

(** [ORDER BY similarity DESC] names no second key: the engine may
    return the rows in any order that is descending in similarity. *)
Definition order_by_desc (rows ordered : list result_row) : Prop :=
  rows ≡ₚ ordered /\ StronglySorted desc ordered.

Section Query.

(** The embedding model behind [embed] and the distance operator of the
    vector extension behind [cosineDistance]. *)
Variable embed : jsstring -> vector.
Variable cosineDistance : vector -> vector -> Q.

(** [generateEmbedding(value)] *)
Definition generateEmbedding (value : jsstring) : vector :=
  embed (replaceAll_newline_space value).

(** [sql`1 - (${cosineDistance(embeddings.embedding, userQueryEmbedded)})`] *)
Definition similarity_to (userQueryEmbedded : vector) (r : embeddings_row) : Q :=
  1 - cosineDistance (row_embedding r) userQueryEmbedded.

Definition select_row (userQueryEmbedded : vector) (r : embeddings_row)
  : result_row :=
  {| name := row_content r; similarity := similarity_to userQueryEmbedded r |}.

(** [.from(embeddings).where(gt(similarity, 0.3))] with the selection. *)
Definition where_select (min : Q) (userQueryEmbedded : vector)
    (tbl : list embeddings_row) : list result_row :=
  map (select_row userQueryEmbedded)
      (List.filter (fun r => gt (similarity_to userQueryEmbedded r) min) tbl).

(** [findRelevantContent(userQuery)] on a table: the lists the query may
    return. *)
Definition findRelevantContent (tbl : list embeddings_row)
    (userQuery : jsstring) (results : list result_row) : Prop :=
  exists ordered,
    order_by_desc (where_select threshold (generateEmbedding userQuery) tbl)
                  ordered
    /\ results = take limit ordered.

(** One ordering the engine may choose, by insertion from the right: a
    row stays before the later rows of equal similarity. *)
Fixpoint insert_desc (x : result_row) (l : list result_row) : list result_row :=
  match l with
  | [] => [x]
  | y :: l' =>
      if Qle_bool (similarity y) (similarity x) then x :: l
      else y :: insert_desc x l'
  end.

Definition sort_desc (l : list result_row) : list result_row :=
  foldr insert_desc [] l.

(** The result under that ordering. *)
Definition findRelevantContent_run (tbl : list embeddings_row)
    (userQuery : jsstring) : list result_row :=
  take limit (sort_desc (where_select threshold (generateEmbedding userQuery) tbl)).

(** The retrieval contract in the words of the specification, with its
    two tunable parameters: rank descending by similarity, discard the
    entries with similarity at most [minSimilarity], truncate to [topK].
    The specification calls the [name] field [content]. *)
Definition findRelevant_contract (topK : nat) (minSimilarity : Q)
    (tbl : list embeddings_row) (query : jsstring)
    (results : list result_row) : Prop :=
  exists ordered,
    order_by_desc (where_select minSimilarity (generateEmbedding query) tbl)
                  ordered
    /\ results = take topK ordered.

End Query.

(** Stand-ins for the embedding model and the distance operator, for
    the scenarios of the specification: a stored vector holds the
    distance of its row to the query. *)
Definition scenario_embed (_ : jsstring) : vector := [].

Definition scenario_distance (v _ : vector) : Q :=
  match v with
  | d :: _ => d
  | [] => 1
  end.

Definition scenario_row (content : string) (distance : Q) : embeddings_row :=
  {| row_content := of_string content; row_embedding := [distance] |}.

Definition scenario_result (content : string) (distance : Q) : result_row :=
  {| name := of_string content; similarity := 1 - distance |}.

End Retrieval.

(** ** Conversations and messages *)

Module ChatSchema.

(** Rows of [conversations] and [messages] without their primary key,
    which is the key of the table. [conversation_id] is [NOT NULL]. *)
Record conversation := {
  user_id : string;
  conv_title : option string;
  conv_created_at : Z;
  conv_updated_at : Z
}.

Record message := {
  conversation_id : string;
  role : string;
  msg_content : string;
  tool_calls : option string;
  tool_results : option string;
  msg_created_at : Z
}.

Record database := {
  conversations : gmap string conversation;
  messages : gmap string message
}.

Definition empty_database : database :=
  {| conversations := ∅; messages := ∅ |}.

(** The statements that touch the key of a conversation or the
    reference of a message. *)
Inductive statement :=
  | InsertConversation (id : string) (c : conversation)
  | DeleteConversation (id : string)
  | UpdateConversationId (id new_id : string)
  | InsertMessage (id : string) (m : message)
  | DeleteMessage (id : string)
  | UpdateMessageConversation (id : string) (new_conversation_id : string).

Definition set_conversation (m : message) (cid : string) : message :=
  {| conversation_id := cid; role := role m; msg_content := msg_content m;
     tool_calls := tool_calls m; tool_results := tool_results m;
     msg_created_at := msg_created_at m |}.

(** Some message references conversation [cid]. *)
Definition referenced (db : database) (cid : string) : bool :=
  bool_decide (map_Exists (fun _ m => conversation_id m = cid) (messages db)).

(** Execution of one statement under the constraints of the schema:
    the primary keys, and [messages_conversation_id_fkey] with
    [ON DELETE CASCADE] (and the default [ON UPDATE NO ACTION]).
    [None] is a statement rejected by a constraint. *)
Definition exec (s : statement) (db : database) : option database :=
  match s with
  | InsertConversation id c =>
      match conversations db !! id with
      | Some _ => None
      | None => Some {| conversations := <[id := c]> (conversations db);
                        messages := messages db |}
      end
  | DeleteConversation id =>
      Some {| conversations := delete id (conversations db);
              messages := filter (fun km => conversation_id km.2 ≠ id)
                                 (messages db) |}
  | UpdateConversationId id new_id =>
      match conversations db !! id with
      | None => Some db
      | Some c =>
          if decide (new_id = id) then Some db
          else if referenced db id then None
          else match conversations db !! new_id with
               | Some _ => None
               | None => Some {| conversations :=
                                   <[new_id := c]> (delete id (conversations db));
                                 messages := messages db |}
               end
      end
  | InsertMessage id m =>
      match messages db !! id, conversations db !! conversation_id m with
      | None, Some _ => Some {| conversations := conversations db;
                                messages := <[id := m]> (messages db) |}
      | _, _ => None
      end
  | DeleteMessage id =>
      Some {| conversations := conversations db;
              messages := delete id (messages db) |}
  | UpdateMessageConversation id cid =>
      match messages db !! id with
      | None => Some db
      | Some m =>
          match conversations db !! cid with
          | None => None
          | Some _ => Some {| conversations := conversations db;
                              messages := <[id := set_conversation m cid]>
                                            (messages db) |}
          end
      end
  end.

(** A rejected statement leaves the database as it was. *)
Definition step (db : database) (s : statement) : database :=
  match exec s db with
  | Some db' => db'
  | None => db
  end.

Definition run (ss : list statement) (db : database) : database :=
  foldl step db ss.

(** Every message references an existing conversation. *)
Definition fk_holds (db : database) : Prop :=
  forall id m, messages db !! id = Some m ->
    is_Some (conversations db !! conversation_id m).

End ChatSchema.

(** ** Batch embedding of a text *)

Module BatchEmbedding.

Import Ingestion.

(** An element of the array that [generateEmbeddings] returns;
    [chunks[i]] is undefined past the end of [chunks]. *)
Record embedded_chunk := {
  chunk_content : option jsstring;
  chunk_embedding : vector
}.

(** [generateEmbeddings(value)]. The call of the embedding service,
    [embedMany({ model, values })], rejects ([None]) or yields
    [embeddings]. *)
Definition generateEmbeddings
    (embed_values : list jsstring -> option (list vector))
    (value : jsstring) : option (list embedded_chunk) :=
  let chunks := generateChunks value in
  match embed_values chunks with
  | None => None
  | Some embeddings =>
      Some (imap (fun i e => {| chunk_content := chunks !! i;
                                chunk_embedding := e |}) embeddings)
  end.

End BatchEmbedding.

(** ** The server action pattern *)

Module ServerAction.

(** What a [catch] clause receives: an [Error] with its message, or
    another value. *)
Inductive thrown :=
  | ThrownError (message : jsstring)
  | ThrownOther.

Definition success_message : jsstring := of_string "Operation successful.".
Definition fallback_message : jsstring := of_string "Error, please try again.".

(** [error instanceof Error && error.message.length > 0
      ? error.message : "Error, please try again."] *)
Definition catch_message (error : thrown) : jsstring :=
  match error with
  | ThrownError ((_ :: _) as message) => message
  | _ => fallback_message
  end.

Section Action.

(** The input and the validated row, the schema's [parse], and the
    answer of the store to the insert of a row ([None]: accepted). *)
Variables input row : Type.
Variable parse : input -> thrown + row.
Variable insert_rejects : row -> option thrown.

(** [myAction(input)] on the rows of the table: the message it returns
    and the table it leaves. *)
Definition myAction (data : input) (tbl : list row) : jsstring * list row :=
  match parse data with
  | inl error => (catch_message error, tbl)
  | inr validatedData =>
      match insert_rejects validatedData with
      | Some error => (catch_message error, tbl)
      | None => (success_message, tbl ++ [validatedData])
      end
  end.

End Action.

End ServerAction.

(** ** The chat form *)

Module ChatForm.

(** What the submit handler does to the outside. *)
Inductive form_event :=
  | ConsoleLog (message : jsstring)
  | PreventDefault
  | SendMessage (text : jsstring)
  | SetInput (value : jsstring).

(** The component between two renders: [input] is the state that the
    last render captured, which its handlers read; [pending] is the
    value last given to [setInput] since then, which the next render
    makes the state; [effects] is what the handlers have done. *)
Record form := {
  input : jsstring;
  pending : option jsstring;
  effects : list form_event
}.

(** [handleSubmit(e)] of the chat page. *)
Definition handleSubmit (f : form) : form :=
  let effects1 :=
    effects f ++ [ConsoleLog (of_string "Submitting form"); PreventDefault] in
  if Boolean (trim (input f)) then
    {| input := input f;
       pending := Some [];
       effects := effects1 ++ [SendMessage (input f); SetInput []] |}
  else {| input := input f; pending := pending f; effects := effects1 |}.

(** [onChange]: the user types, [setInput(e.target.value)]. *)
Definition onChange (value : jsstring) (f : form) : form :=
  {| input := input f;
     pending := Some value;
     effects := effects f ++ [SetInput value] |}.

(** A render: the pending value, if any, becomes the state. *)
Definition render (f : form) : form :=
  {| input := match pending f with Some value => value | None => input f end;
     pending := None;
     effects := effects f |}.

(** The texts handed to [sendMessage], in order. *)
Definition sent (es : list form_event) : list jsstring :=
  omap (fun e => match e with SendMessage t => Some t | _ => None end) es.

(** What happens to the form: the user types a value or submits, or
    the component renders again. *)
Inductive user_action :=
  | Typing (value : jsstring)
  | Submit
  | Render.

Definition act (f : form) (a : user_action) : form :=
  match a with
  | Typing value => onChange value f
  | Submit => handleSubmit f
  | Render => render f
  end.

(** The form as [useState("")] creates it, and after a list of
    actions. *)
Definition initial_form : form :=
  {| input := []; pending := None; effects := [] |}.

Definition session (actions : list user_action) : form :=
  foldl act initial_form actions.

End ChatForm.

(** ** The shared Supabase client *)

Module SupabaseClient.

Section Client.

(** The client objects, and the object that the [n]-th call of
    [createClient] builds. *)
Variable client : Type.
Variable createClient : nat -> client.

(** The module variable [supabase] and the number of calls of
    [createClient] so far. *)
Record module_state := {
  supabase : option client;
  created : nat
}.

Definition initial : module_state := {| supabase := None; created := 0 |}.

(** [getSupabaseClient()] *)
Definition getSupabaseClient (st : module_state) : client * module_state :=
  match supabase st with
  | Some c => (c, st)
  | None =>
      let c := createClient (created st) in
      (c, {| supabase := Some c; created := S (created st) |})
  end.

(** [n] calls in a row: the clients returned and the state left. *)
Fixpoint calls (n : nat) (st : module_state) : list client * module_state :=
  match n with
  | O => ([], st)
  | S n' =>
      let (c, st1) := getSupabaseClient st in
      let (cs, st2) := calls n' st1 in
      (c :: cs, st2)
  end.

End Client.

End SupabaseClient.

(** ** Row level security of the chat tables *)

Module RowSecurity.

Import ChatSchema.

(** [id IN (SELECT id FROM conversations WHERE user_id = auth.uid())]:
    the conversation exists and belongs to the user of the session. *)
Definition owns (uid : string) (db : database) (cid : string) : bool :=
  match conversations db !! cid with
  | Some c => bool_decide (user_id c = uid)
  | None => false
  end.

(** The rows that the [SELECT] policies show to a user. *)
Definition visible_conversations (uid : string) (db : database)
  : gmap string conversation :=
  filter (fun kc => user_id kc.2 = uid) (conversations db).

Definition visible_messages (uid : string) (db : database)
  : gmap string message :=
  filter (fun km => owns uid db (conversation_id km.2) = true) (messages db).

(** Statements of a session, each on the row with a given key. An
    update gives the new values of all columns but the key. *)
Inductive request :=
  | InsertOwnConversation (id : string) (c : conversation)
  | UpdateOwnConversation (id : string) (c : conversation)
  | DeleteOwnConversation (id : string)
  | InsertOwnMessage (id : string) (m : message)
  | UpdateOwnMessage (id : string) (m : message)
  | DeleteOwnMessage (id : string).

(** Execution under the policies of the migration. An [INSERT] whose
    row fails [WITH CHECK] is an error ([None]); an [UPDATE] or [DELETE]
    skips the rows that fail [USING]; the new row of an [UPDATE] must
    pass the [USING] expression again; [messages] has no [UPDATE]
    policy, so no row of it can be updated. The constraints of the
    schema apply as before. *)
Definition exec_as (uid : string) (r : request) (db : database)
  : option database :=
  match r with
  | InsertOwnConversation cid c =>
      if bool_decide (user_id c = uid)
      then exec (InsertConversation cid c) db
      else None
  | UpdateOwnConversation cid c' =>
      if owns uid db cid then
        if bool_decide (user_id c' = uid)
        then Some {| conversations := <[cid := c']> (conversations db);
                     messages := messages db |}
        else None
      else Some db
  | DeleteOwnConversation cid =>
      if owns uid db cid then exec (DeleteConversation cid) db else Some db
  | InsertOwnMessage mid m =>
      if owns uid db (conversation_id m)
      then exec (InsertMessage mid m) db
      else None
  | UpdateOwnMessage mid m' => Some db
  | DeleteOwnMessage mid =>
      match messages db !! mid with
      | Some m =>
          if owns uid db (conversation_id m)
          then exec (DeleteMessage mid) db
          else Some db
      | None => Some db
      end
  end.

End RowSecurity.

(** ** The chat page *)

Module ChatPage.

(** [UIMessage["role"]] *)
Inductive ui_role := RoleSystem | RoleUser | RoleAssistant.

(** A part of a message: its [type], and the fields the page reads,
    [state] and [toolName] of tool parts and [text] of text parts. *)
Record ui_part := {
  part_type : jsstring;
  part_state : option jsstring;
  part_toolName : jsstring;
  part_text : jsstring
}.

Record ui_message := {
  message_id : jsstring;
  message_role : ui_role;
  message_parts : list ui_part
}.

(** [useChat().status] *)
Inductive chat_status := Submitted | Streaming | Ready | StatusError.

Definition role_eqb (a b : ui_role) : bool :=
  match a, b with
  | RoleSystem, RoleSystem | RoleUser, RoleUser
  | RoleAssistant, RoleAssistant => true
  | _, _ => false
  end.

(** [s === literal] on strings. *)
Definition str_eqb (s t : jsstring) : bool := bool_decide (s = t).

(** [[...xs].reverse().find(p)] *)
Definition reverse_find {A} (p : A -> bool) (xs : list A) : option A :=
  List.find p (rev xs).

(** [xs.filter(p).slice(-1)[0]] *)
Definition filter_last {A} (p : A -> bool) (xs : list A) : option A :=
  last (List.filter p xs).

Section Page.

(** [isToolUIPart] and [getToolName] of the AI SDK. *)
Variable isToolUIPart : ui_part -> bool.
Variable getToolName : ui_part -> jsstring.

Definition is_dynamic_tool (part : ui_part) : bool :=
  str_eqb (part_type part) (of_string "dynamic-tool").

(** [state !== "output-available" && state !== "output-error"] *)
Definition unfinished (state : option jsstring) : bool :=
  match state with
  | Some s => negb (str_eqb s (of_string "output-available"))
              && negb (str_eqb s (of_string "output-error"))
  | None => true
  end.

(** The predicate handed to [find] on the parts. *)
Definition is_pending (part : ui_part) : bool :=
  if is_dynamic_tool part then unfinished (part_state part)
  else if negb (isToolUIPart part) then false
  else unfinished (part_state part).

(** The body of the [useMemo] that computes [currentToolCall]. *)
Definition currentToolCall (messages : list ui_message) : option jsstring :=
  match reverse_find (fun m => role_eqb (message_role m) RoleAssistant)
                     messages with
  | None => None
  | Some lastAssistant =>
      match reverse_find is_pending (message_parts lastAssistant) with
      | None => None
      | Some pendingPart =>
          if is_dynamic_tool pendingPart then Some (part_toolName pendingPart)
          else if isToolUIPart pendingPart then Some (getToolName pendingPart)
          else None
      end
  end.

(** [isAwaitingResponse] *)
Definition isAwaitingResponse (status : chat_status)
    (messages : list ui_message) : bool :=
  match status with
  | Submitted | Streaming => true
  | _ => match currentToolCall messages with Some _ => true | None => false end
  end.

End Page.

(** [lastAssistantMessage] *)
Definition lastAssistantMessage (messages : list ui_message)
  : option ui_message :=
  filter_last (fun m => negb (role_eqb (message_role m) RoleUser)) messages.

End ChatPage.

(** * Properties *)

Import Js Chunking.

(** ** Trimming *)

Section TrimFacts.

Lemma trimStart_suffix (s : jsstring) :
  exists pre, s = pre ++ trimStart s.
Proof.
  induction s as [|c s [pre IH]]; simpl.
  - by exists [].
  - destruct (is_whitespace c).
    + exists (c :: pre). simpl. by f_equal.
    + by exists [].
Qed.

Lemma trimStart_head (s : jsstring) :
  starts_with_whitespace (trimStart s) = false.
Proof.
  induction s as [|c s IH]; simpl; [done|].
  destruct (is_whitespace c) eqn:E; [done|]. by simpl.
Qed.

Lemma trimEnd_prefix (s : jsstring) :
  exists suf, s = trimEnd s ++ suf.
Proof.
  unfold trimEnd. destruct (trimStart_suffix (rev s)) as [pre H].
  exists (rev pre).
  rewrite <- rev_app_distr, <- H. by rewrite rev_involutive.
Qed.

Lemma trim_substring (s : jsstring) : substring_of (trim s) s.
Proof.
  unfold trim, substring_of.
  destruct (trimStart_suffix s) as [pre Hpre].
  destruct (trimEnd_prefix (trimStart s)) as [suf Hsuf].
  exists pre, suf. by rewrite <- Hsuf.
Qed.

Lemma trim_no_trailing_whitespace (s : jsstring) :
  ends_with_whitespace (trim s) = false.
Proof.
  unfold ends_with_whitespace, trim, trimEnd.
  rewrite rev_involutive. apply trimStart_head.
Qed.

Lemma trim_no_leading_whitespace (s : jsstring) :
  starts_with_whitespace (trim s) = false.
Proof.
  unfold trim.
  pose proof (trimStart_head s) as Hhead.
  destruct (trimEnd_prefix (trimStart s)) as [suf Hsuf].
  destruct (trimEnd (trimStart s)) as [|c t] eqn:E; [done|].
  rewrite Hsuf in Hhead. by simpl in *.
Qed.

Lemma trimStart_whitespace_only (s : jsstring) :
  Forall (fun c => is_whitespace c = true) s -> trimStart s = [].
Proof.
  induction 1 as [|c s Hc _ IH]; simpl; [done|]. by rewrite Hc.
Qed.

Lemma trim_whitespace_only (s : jsstring) :
  Forall (fun c => is_whitespace c = true) s -> trim s = [].
Proof.
  intros H. unfold trim. by rewrite (trimStart_whitespace_only s H).
Qed.

End TrimFacts.

(** ** Slices *)

Section SliceFacts.

Lemma slice_substring (s : jsstring) (a b : Z) : substring_of (slice s a b) s.
Proof.
  unfold slice, substring_of.
  set (len := Z.of_nat (length s)).
  set (from := Z.to_nat (clamp_index len a)).
  set (n := Z.to_nat (clamp_index len b - clamp_index len a)).
  exists (take from s), (drop n (drop from s)).
  by rewrite !take_drop.
Qed.

(** A slice from a non-negative start is the text from there on, cut
    to the requested length. *)
Lemma slice_take_drop (s : jsstring) (start size : Z) :
  (0 <= start)%Z -> (0 <= size)%Z ->
  slice s start (start + size) = take (Z.to_nat size) (drop (Z.to_nat start) s).
Proof.
  intros Hs Hz. unfold slice, clamp_index.
  destruct (Z.ltb_spec start 0); [lia|].
  destruct (Z.ltb_spec (start + size) 0); [lia|].
  destruct (Z.le_gt_cases (Z.of_nat (length s)) start) as [Hout|Hin].
  - rewrite (Z.min_r start) by lia. rewrite (Z.min_r (start + size)) by lia.
    rewrite Z.sub_diag. simpl.
    rewrite (drop_ge s (Z.to_nat start)) by lia. by rewrite take_nil.
  - rewrite (Z.min_l start) by lia.
    destruct (Z.le_gt_cases (start + size) (Z.of_nat (length s))).
    + rewrite Z.min_l by lia. f_equal. lia.
    + rewrite Z.min_r by lia.
      rewrite !take_ge; [done| |]; rewrite length_drop; lia.
Qed.

Lemma slice_whitespace_only (s : jsstring) (a b : Z) :
  Forall (fun c => is_whitespace c = true) s ->
  Forall (fun c => is_whitespace c = true) (slice s a b).
Proof.
  intros H. unfold slice. by apply Forall_take, Forall_drop.
Qed.

Lemma substring_of_trans (a b c : jsstring) :
  substring_of a b -> substring_of b c -> substring_of a c.
Proof.
  intros (p1 & s1 & ->) (p2 & s2 & ->).
  exists (p2 ++ p1), (s1 ++ s2). by rewrite <- !app_assoc.
Qed.

End SliceFacts.

(** ** The chunking loop *)

Section ChunkLoop.

Lemma iterations_done (len i step : Z) :
  (0 < step)%Z -> (len <= i)%Z -> iterations len i step = 0%nat.
Proof.
  intros Hs Hi. unfold iterations.
  assert ((len - i + step - 1) / step < 1)%Z; [|lia].
  apply Z.div_lt_upper_bound; lia.
Qed.

Lemma iterations_step (len i step : Z) :
  (0 < step)%Z -> (i < len)%Z ->
  iterations len i step = S (iterations len (i + step) step).
Proof.
  intros Hs Hi. unfold iterations.
  replace (len - i + step - 1)%Z with ((len - (i + step) + step - 1) + 1 * step)%Z by lia.
  rewrite Z.div_add by lia.
  assert (0 <= (len - (i + step) + step - 1) / step)%Z; [|lia].
  apply Z.div_pos; lia.
Qed.

(** With a positive step the loop needs no more iterations than the
    text has code units. *)
Lemma iterations_le_length (len step : Z) :
  (0 < step)%Z -> (0 <= len)%Z -> (iterations len 0 step <= Z.to_nat len)%nat.
Proof.
  intros Hs Hl. unfold iterations.
  apply Z2Nat.inj_le; [apply Z.div_pos; lia | lia |].
  apply Z.lt_succ_r, Z.div_lt_upper_bound; nia.
Qed.

(** The ceiling bounds of the iteration count. *)
Lemma iterations_bounds (len step : Z) :
  (0 < step)%Z -> (0 < len)%Z ->
  ((Z.of_nat (iterations len 0 step) - 1) * step < len
   <= Z.of_nat (iterations len 0 step) * step)%Z.
Proof.
  intros Hs Hl. unfold iterations.
  rewrite Z2Nat.id by (apply Z.div_pos; lia).
  pose proof (Z.div_mod (len - 0 + step - 1) step ltac:(lia)) as Hdm.
  pose proof (Z.mod_pos_bound (len - 0 + step - 1) step Hs) as Hm.
  nia.
Qed.

(** What the loop returns when it is given enough fuel: the array it
    started with, followed by the trimmed slices taken at [i],
    [i + step], [i + 2 step], ... below the length of the text. *)
Lemma chunk_loop_returns (text : jsstring) (size overlap : Z) :
  (overlap < size)%Z ->
  forall fuel i chunks,
    (iterations (Z.of_nat (length text)) i (size - overlap) < fuel)%nat ->
    chunk_loop fuel text size overlap i chunks
    = Some (chunks ++
            map (fun k : nat =>
                   let start := (i + Z.of_nat k * (size - overlap))%Z in
                   trim (slice text start (start + size)))
                (seq 0 (iterations (Z.of_nat (length text)) i (size - overlap)))).
Proof.
  intros Hstep fuel.
  induction fuel as [|fuel IH]; intros i chunks Hfuel; [lia|].
  simpl. destruct (Z.ltb_spec i (Z.of_nat (length text))) as [Hlt|Hge].
  - rewrite (iterations_step _ i) in Hfuel |- * by lia.
    rewrite IH by lia. f_equal. rewrite <- app_assoc. f_equal.
    simpl. rewrite Z.add_0_r. f_equal.
    rewrite <- seq_shift, map_map. apply map_ext. intros k.
    simpl. replace (i + (size - overlap) + Z.of_nat k * (size - overlap))%Z
      with (i + Z.of_nat (S k) * (size - overlap))%Z by lia.
    done.
  - rewrite iterations_done by lia. simpl. by rewrite app_nil_r.
Qed.

(** [chunkText] with a positive step returns the trimmed windows that
    are not empty. *)
Lemma chunkText_fuel_returns (text : jsstring) (size overlap : Z) (fuel : nat) :
  (overlap < size)%Z ->
  (iterations (Z.of_nat (length text)) 0 (size - overlap) < fuel)%nat ->
  chunkText_fuel fuel text size overlap
  = Some (List.filter Boolean (map trim (windows text size overlap))).
Proof.
  intros Hstep Hfuel. unfold chunkText_fuel.
  rewrite chunk_loop_returns by done. simpl.
  do 2 f_equal. unfold windows. rewrite map_map. by apply map_ext.
Qed.

Lemma chunkText_enough_fuel (text : jsstring) (size overlap : Z) :
  (overlap < size)%Z ->
  chunkText_fuel (S (length text)) text size overlap
  = Some (List.filter Boolean (map trim (windows text size overlap))).
Proof.
  intros Hstep. apply chunkText_fuel_returns; [done|].
  pose proof (iterations_le_length (Z.of_nat (length text)) (size - overlap)) as H.
  rewrite Nat2Z.id in H. apply Nat.lt_succ_r, H; lia.
Qed.

(** When the step is not positive the loop variable never passes the
    start of a non-empty text. *)
Lemma chunk_loop_stuck (text : jsstring) (size overlap : Z) :
  (size <= overlap)%Z -> text <> [] ->
  forall fuel i chunks,
    (i <= 0)%Z -> chunk_loop fuel text size overlap i chunks = None.
Proof.
  intros Hstep Hne fuel.
  induction fuel as [|fuel IH]; intros i chunks Hi; [done|].
  simpl. destruct (Z.ltb_spec i (Z.of_nat (length text))) as [Hlt|Hge].
  - apply IH. lia.
  - destruct text; [done|]. simpl in Hge. lia.
Qed.

(** More fuel does not change what the loop returns. *)
Lemma chunk_loop_fuel_mono (text : jsstring) (size overlap : Z) :
  forall fuel fuel' i chunks result,
    (fuel <= fuel')%nat ->
    chunk_loop fuel text size overlap i chunks = Some result ->
    chunk_loop fuel' text size overlap i chunks = Some result.
Proof.
  induction fuel as [|fuel IH]; intros fuel' i chunks result Hle H; [done|].
  destruct fuel' as [|fuel']; [lia|].
  simpl in *. destruct (i <? Z.of_nat (length text))%Z; [|done].
  apply (IH fuel'); [lia | done].
Qed.

(** [chunkText] returns at most one result. *)
Lemma chunkText_returns_unique (text : jsstring) (size overlap : Z)
    (chunks1 chunks2 : list jsstring) :
  chunkText_returns text size overlap chunks1 ->
  chunkText_returns text size overlap chunks2 ->
  chunks1 = chunks2.
Proof.
  intros [f1 H1] [f2 H2]. unfold chunkText_fuel in *.
  destruct (chunk_loop f1 text size overlap 0 []) as [r1|] eqn:E1; [|done].
  destruct (chunk_loop f2 text size overlap 0 []) as [r2|] eqn:E2; [|done].
  apply (chunk_loop_fuel_mono _ _ _ _ (f1 `max` f2)%nat) in E1; [|lia].
  apply (chunk_loop_fuel_mono _ _ _ _ (f1 `max` f2)%nat) in E2; [|lia].
  congruence.
Qed.

End ChunkLoop.

(** ** Windows and reassembly *)

Section Windows.

Lemma window_take_drop (text : jsstring) (size overlap : Z) (k : nat) :
  (0 <= overlap < size)%Z ->
  window text size overlap k
  = take (Z.to_nat size) (drop (k * Z.to_nat (size - overlap)) text).
Proof.
  intros H. unfold window. cbv zeta.
  rewrite slice_take_drop by (try apply Z.mul_nonneg_nonneg; lia).
  do 2 f_equal. rewrite Z2Nat.inj_mul by lia. by rewrite Nat2Z.id.
Qed.

Lemma reassemble_cons (step : nat) (w : jsstring) (ws : list jsstring) :
  ws <> [] -> reassemble step (w :: ws) = take step w ++ reassemble step ws.
Proof. by destruct ws. Qed.

Lemma reassemble_take_drop (step size : nat) :
  (1 <= step <= size)%nat ->
  forall (n : nat) (text : jsstring),
    (length text <= n * step)%nat ->
    reassemble step (map (fun k => take size (drop (k * step) text)) (seq 0 n))
    = text.
Proof.
  intros Hs n. induction n as [|n IH]; intros text Hlen.
  - destruct text; [done | simpl in Hlen; lia].
  - rewrite <- cons_seq, <- seq_shift. rewrite map_cons, map_map.
    destruct n as [|n].
    + simpl. rewrite drop_0. rewrite take_ge; [done | lia].
    + rewrite reassemble_cons by done.
      rewrite (map_ext _ (fun k => take size (drop (k * step) (drop step text))));
        [|intros k; rewrite drop_drop; do 2 f_equal; lia].
      rewrite IH by (rewrite length_drop; lia).
      simpl. rewrite take_take, Nat.min_l by lia. apply take_drop.
Qed.

Lemma windows_length (text : jsstring) (size overlap : Z) :
  length (windows text size overlap)
  = iterations (Z.of_nat (length text)) 0 (size - overlap).
Proof. unfold windows. by rewrite length_map, length_seq. Qed.

Lemma windows_lookup (text : jsstring) (size overlap : Z) (k : nat) (w : jsstring) :
  windows text size overlap !! k = Some w -> w = window text size overlap k.
Proof.
  unfold windows. rewrite list_lookup_fmap.
  intros H. apply fmap_Some in H as (j & Hj & ->).
  apply lookup_seq in Hj as [-> _]. done.
Qed.

Lemma windows_reassemble (text : jsstring) (size overlap : Z) :
  (0 <= overlap < size)%Z ->
  reassemble (Z.to_nat (size - overlap)) (windows text size overlap) = text.
Proof.
  intros H. unfold windows.
  rewrite (map_ext _ (fun k => take (Z.to_nat size)
                                (drop (k * Z.to_nat (size - overlap)) text)))
    by (intros k; by apply window_take_drop).
  apply reassemble_take_drop; [lia|].
  destruct text as [|c text]; [apply Nat.le_0_l|].
  pose proof (iterations_bounds (Z.of_nat (length (c :: text))) (size - overlap)
                ltac:(lia) ltac:(simpl; lia)) as Hb.
  apply Nat2Z.inj_le. rewrite Nat2Z.inj_mul, Z2Nat.id by lia. lia.
Qed.

Lemma trimStart_nil (s : jsstring) : trimStart s = [] -> blank s = true.
Proof.
  induction s as [|c s IH]; simpl; [done|].
  destruct (is_whitespace c); [auto | done].
Qed.

Lemma Boolean_trim (w : jsstring) : Boolean (trim w) = negb (blank w).
Proof.
  destruct (blank w) eqn:E.
  - rewrite trim_whitespace_only; [done|].
    apply List.Forall_forall. intros c Hc. unfold blank in E.
    rewrite forallb_forall in E. by apply E.
  - destruct (trim w) as [|c t] eqn:Ht; [|done].
    unfold trim, trimEnd in Ht.
    apply (f_equal (@rev N)) in Ht. rewrite rev_involutive in Ht. simpl in Ht.
    apply trimStart_nil in Ht. unfold blank in Ht.
    pose proof (trimStart_head w) as Hh.
    destruct (trimStart w) as [|c t] eqn:Hs.
    + apply trimStart_nil in Hs. congruence.
    + exfalso. rewrite forallb_forall in Ht.
      simpl in Hh. rewrite (Ht c) in Hh; [done|].
      apply in_rev. rewrite rev_involutive. by left.
Qed.

Lemma filter_Boolean_trim (ws : list jsstring) :
  List.filter Boolean (map trim ws)
  = map trim (List.filter (fun w => negb (blank w)) ws).
Proof.
  induction ws as [|w ws IH]; [done|].
  simpl. rewrite Boolean_trim. destruct (blank w); simpl; by rewrite IH.
Qed.

(** The pieces of a split are substrings without the separator, the
    first of them a prefix. *)
Lemma split_on_pieces (sep : code_unit) (s : jsstring) :
  exists first rest,
    split_on sep s = first :: rest
    /\ (exists suf, s = first ++ suf) /\ ~ In sep first
    /\ Forall (fun piece => substring_of piece s /\ ~ In sep piece) rest.
Proof.
  induction s as [|c s (first & rest & E & [suf Hpre] & Hfirst & Hrest)]; simpl.
  - exists [], []. repeat split; [by exists [] | by intros [] | constructor].
  - assert (Forall (fun piece => substring_of piece (c :: s) /\ ~ In sep piece)
                   rest) as Hrest'.
    { eapply Forall_impl; [exact Hrest|].
      intros piece [(pre' & suf' & ->) Hq]. split; [|done].
      by exists (c :: pre'), suf'. }
    destruct (N.eqb_spec c sep) as [->|Hc].
    + exists [], (split_on sep s). repeat split.
      * by exists (sep :: s).
      * by intros [].
      * rewrite E. constructor; [|done]. split; [|done].
        exists [sep], suf. simpl. by rewrite Hpre.
    + rewrite E. exists (c :: first), rest. repeat split; [| |done].
      * exists suf. simpl. by rewrite Hpre.
      * intros [->|Hin]; done.
Qed.

(** The sentence chunker returns non-empty substrings of its input that
    hold no full stop. *)
Lemma generateChunks_chunks (input : jsstring) :
  Forall (fun c => c <> [] /\ substring_of c input /\ ~ In full_stop c)
         (generateChunks input).
Proof.
  unfold generateChunks.
  destruct (split_on_pieces full_stop (trim input))
    as (first & rest & -> & [suf Hpre] & Hfirst & Hrest).
  apply List.Forall_forall. intros c Hc.
  apply filter_In in Hc as [Hc Hb]. split; [by destruct c|].
  assert (substring_of c (trim input) /\ ~ In full_stop c) as [Hsub Hnot].
  { destruct Hc as [<-|Hc].
    - split; [by exists [], suf | done].
    - rewrite List.Forall_forall in Hrest. by apply Hrest. }
  split; [|done].
  apply (substring_of_trans _ (trim input)); [done | apply trim_substring].
Qed.

End Windows.

(** ** Chunking: the claims *)

Section ChunkingClaims.

Lemma fuel_suffices (text : jsstring) (size overlap : Z) (fuel : nat) :
  (overlap < size)%Z -> (length text < fuel)%nat ->
  (iterations (Z.of_nat (length text)) 0 (size - overlap) < fuel)%nat.
Proof.
  intros Hs Hf.
  pose proof (iterations_le_length (Z.of_nat (length text)) (size - overlap)
                ltac:(lia) ltac:(lia)) as H.
  rewrite Nat2Z.id in H. lia.
Qed.

(** C1. With [overlap >= size] nothing validates the parameters: on every
    non-empty text the loop of [chunkText] never ends, whatever number
    of iterations it is given. *)
Theorem chunkText_overlap_ge_size_diverges (text : jsstring) (size overlap : Z) :
  (size <= overlap)%Z -> text <> [] -> chunkText_diverges text size overlap.
Proof.
  intros Hs Hne fuel. unfold chunkText_fuel.
  by rewrite chunk_loop_stuck.
Qed.

Lemma chunkText_overlap_ge_size_diverges_witness :
  (1 <= 1)%Z /\ of_string "a" <> []
  /\ chunkText_diverges (of_string "a") 1 1.
Proof.
  split; [lia|]. split; [discriminate|].
  apply chunkText_overlap_ge_size_diverges; [lia | discriminate].
Defined.

(** C4 (amended). For [0 <= overlap < size] the loop cuts exactly
    [ceil (L / (size - overlap))] windows; the [k]-th window is the slice
    that starts [k * (size - overlap)] code units into the text and is
    at most [size] long; keeping the first [size - overlap] code units of
    every window but the last, and the last window whole, gives back the
    text. [chunkText] returns these windows trimmed, without the ones
    that trimming empties: no more chunks than windows, each of them
    non-empty and a substring of the text. *)
Theorem chunkText_windows_cover (text : jsstring) (size overlap : Z) :
  (0 <= overlap < size)%Z ->
  let step := (size - overlap)%Z in
  let ws := windows text size overlap in
  length ws = Z.to_nat ((Z.of_nat (length text) + step - 1) / step)
  /\ (forall k w, ws !! k = Some w ->
        w = slice text (Z.of_nat k * step) (Z.of_nat k * step + size)
        /\ w = take (Z.to_nat size) (drop (k * Z.to_nat step) text))
  /\ reassemble (Z.to_nat step) ws = text
  /\ (forall fuel, (length text < fuel)%nat ->
        exists chunks,
          chunkText_fuel fuel text size overlap = Some chunks
          /\ chunks = List.filter Boolean (map trim ws)
          /\ (length chunks <= length ws)%nat
          /\ Forall (fun c => c <> [] /\ substring_of c text) chunks).
Proof.
  intros H step ws. repeat split.
  - unfold ws. rewrite windows_length. unfold iterations, step.
    by rewrite Z.sub_0_r.
  - by apply windows_lookup in H0.
  - apply windows_lookup in H0 as ->. by apply window_take_drop.
  - by apply windows_reassemble.
  - intros fuel Hfuel. eexists. split; [|split; [reflexivity|split]].
    + apply chunkText_fuel_returns; [lia|]. apply fuel_suffices; lia.
    + etrans; [apply List.filter_length_le|]. by rewrite length_map.
    + apply List.Forall_forall. intros c Hc.
      apply filter_In in Hc as [Hc Hb]. split; [by destruct c|].
      apply in_map_iff in Hc as (w & <- & Hw).
      apply (substring_of_trans _ w); [apply trim_substring|].
      unfold ws, windows in Hw. apply in_map_iff in Hw as (k & <- & _).
      apply slice_substring.
Qed.

Lemma chunkText_windows_cover_witness :
  let text := of_string "ab cd  ef" in
  reassemble 3 (windows text 4 1) = text
  /\ chunkText_fuel 10 text 4 1
     = Some [of_string "ab c"; of_string "cd"; of_string "ef"].
Proof.
  intros text.
  destruct (chunkText_windows_cover text 4 1 ltac:(lia))
    as (_ & _ & Hre & Hret).
  split; [exact Hre|].
  destruct (Hret 10%nat ltac:(simpl; lia)) as (chunks & -> & -> & _).
  reflexivity.
Defined.

(** C4, as stated, fails: trimming removes the space that ends the first
    window of ["a b"] cut with size 2 and overlap 0, so the chunks
    returned do not reassemble to the text, and no chunk holds the
    space. *)
Lemma chunkText_trim_breaks_reassembly :
  let text := of_string "a b" in
  let chunks := [of_string "a"; of_string "b"] in
  (0 <= 0 < 2)%Z
  /\ chunkText_fuel 4 text 2 0 = Some chunks
  /\ reassemble 2 chunks <> text
  /\ ~ In 32%N (concat chunks).
Proof.
  simpl. split; [lia|]. split; [reflexivity|]. split; [discriminate|].
  intros [H|[H|[]]]; discriminate.
Qed.

(** C7 (amended). Slices that are empty or hold white space only are
    discarded: for [overlap < size], [chunkText] returns the trimmed
    windows of the text that are not blank. When nothing is left, as for
    an empty or blank text, it returns the empty array; it raises no
    error. *)
Theorem chunkText_discards_blank_slices
    (text : jsstring) (size overlap : Z) (fuel : nat) :
  (overlap < size)%Z -> (length text < fuel)%nat ->
  chunkText_fuel fuel text size overlap
  = Some (map trim (List.filter (fun w => negb (blank w))
                                (windows text size overlap)))
  /\ (blank text = true -> chunkText_fuel fuel text size overlap = Some []).
Proof.
  intros Hs Hf.
  assert (chunkText_fuel fuel text size overlap
          = Some (map trim (List.filter (fun w => negb (blank w))
                                        (windows text size overlap)))) as E.
  { rewrite chunkText_fuel_returns by (try apply fuel_suffices; done).
    by rewrite filter_Boolean_trim. }
  split; [done|]. intros Hb. rewrite E.
  assert (List.filter (fun w => negb (blank w)) (windows text size overlap) = [])
    as ->; [|done].
  unfold windows. induction (seq _ _) as [|k ks IH]; [done|].
  simpl. rewrite IH.
  assert (blank (window text size overlap k) = true) as ->; [|done].
  unfold blank in *. rewrite forallb_forall in Hb |- *.
  intros c Hc. apply Hb.
  destruct (slice_substring text (Z.of_nat k * (size - overlap))
              (Z.of_nat k * (size - overlap) + size)) as (p & q & E').
  rewrite E'. apply in_or_app. right. apply in_or_app. by left.
Qed.

Lemma chunkText_discards_blank_slices_witness :
  chunkText_fuel 8 (of_string " a     b ") 3 0
  = Some [of_string "a"; of_string "b"]
  /\ (blank (of_string "   ") = true
      /\ chunkText_fuel 4 (of_string "   ") default_size default_overlap
         = Some []).
Proof.
  split.
  - destruct (chunkText_discards_blank_slices (of_string " a     b ") 3 0 10)
      as [E _]; [lia | simpl; lia |].
    reflexivity.
  - split; [reflexivity|].
    apply (chunkText_discards_blank_slices (of_string "   ")
             default_size default_overlap 4); [reflexivity | simpl; lia | reflexivity].
Defined.

(** C7, as stated, fails: on the empty text and on a blank text
    [chunkText] returns the empty array as its result. *)
Lemma chunkText_empty_input_returns_empty :
  chunkText_fuel 1 [] default_size default_overlap = Some []
  /\ chunkText_fuel 2 (of_string "   ") default_size default_overlap = Some [].
Proof. split; reflexivity. Qed.

End ChunkingClaims.

(** ** Ingestion: the retry loop *)

Import Ingestion.

Section RetryLoop.

Variable env : environment.
Variable args : ingest_args.
Variable chunks : list jsstring.

Lemma extend_empty (st : state) : extend st empty_state = st.
Proof. destruct st. unfold extend. simpl. by rewrite !app_nil_r. Qed.

Lemma extend_log (st d : state) (e : list event) :
  log e (extend st d) = extend st (log e d).
Proof. unfold log, extend. simpl. by rewrite app_assoc. Qed.

Lemma extend_write (st d : state) (rows : list embedding_row) :
  write rows (extend st d) = extend st (write rows d).
Proof. unfold write, extend. simpl. by rewrite app_assoc. Qed.

(** An attempt does to any state what it does to the empty one. *)
Lemma try_block_extend (attempt : nat) (st d : state) :
  try_block env args chunks attempt (extend st d)
  = match try_block env args chunks attempt d with
    | inl d' => inl (extend st d')
    | inr d' => inr (extend st d')
    end.
Proof.
  unfold try_block.
  destruct (embedMany env attempt chunks) as [|vectors].
  - by rewrite extend_log.
  - destruct (db_insert env attempt _);
      by rewrite !extend_log, extend_write.
Qed.

Lemma retry_loop_extend (remaining attempt : nat) (st d : state) :
  retry_loop env args chunks remaining attempt (extend st d)
  = let (out, d') := retry_loop env args chunks remaining attempt d in
    (out, extend st d').
Proof.
  revert attempt d. induction remaining as [|remaining IH]; intros attempt d.
  - done.
  - simpl. rewrite try_block_extend.
    destruct (try_block env args chunks attempt d) as [d'|d']; [done|].
    destruct (attempt =? maxAttempts)%nat.
    + by rewrite extend_log.
    + by rewrite !extend_log, IH.
Qed.

Lemma retry_loop_from_empty (remaining attempt : nat) (st : state) :
  retry_loop env args chunks remaining attempt st
  = let (out, d) := retry_loop env args chunks remaining attempt empty_state in
    (out, extend st d).
Proof. by rewrite <- retry_loop_extend, extend_empty. Qed.

(** The rows built at an attempt carry the chunks, in order. *)
Lemma make_rows_content (vectors : list vector) (attempt : nat) :
  map content (make_rows env args vectors attempt chunks) = chunks.
Proof.
  unfold make_rows. change (map content) with (fmap (M:=list) content).
  rewrite fmap_imap.
  rewrite (imap_ext _ (const (fun c => c))) by done.
  rewrite imap_const. apply list_fmap_id.
Qed.

Lemma make_rows_resourceId (vectors : list vector) (attempt : nat) :
  Forall (fun r => resourceId r = arg_resourceId args)
         (make_rows env args vectors attempt chunks).
Proof.
  unfold make_rows. apply Forall_forall. intros r Hr.
  apply elem_of_lookup_imap in Hr as (i & c & -> & _). done.
Qed.

End RetryLoop.

(** [ingest] always gets its chunks: the default parameters give a
    positive step. *)
Lemma ingest_unfold (env : environment) (args : ingest_args) (st : state) :
  exists chunks,
    chunkText_fuel (S (length (arg_text args))) (arg_text args)
                   default_size default_overlap = Some chunks
    /\ ingest env args st
       = Some (let (out, d) := retry_loop env args chunks maxAttempts 1 empty_state
               in (out, extend st d)).
Proof.
  eexists. split; [by apply chunkText_enough_fuel|].
  unfold ingest. rewrite chunkText_enough_fuel by done.
  by rewrite retry_loop_from_empty.
Qed.

(** ** Ingestion: the claims *)

(** Unfolds the three turns of the retry loop in an equation [E] that
    names its result, and splits on what the environment answers. *)
Ltac unfold_attempts E :=
  unfold maxAttempts, retry_loop, try_block in E; simpl in E.

Ltac split_attempts E :=
  repeat match type of E with
         | context [match embedMany ?e ?a ?c with _ => _ end] =>
             destruct (embedMany e a c) eqn:?; simpl in E
         | context [match db_insert ?e ?a ?r with _ => _ end] =>
             destruct (db_insert e a r) eqn:?; simpl in E
         end.

Section IngestClaims.

(** Whatever the environment answers, every row that a call leaves in
    the table was built from one of its chunks. *)
Lemma retry_loop_rows_from_chunks
    (env : environment) (args : ingest_args) (chunks : list jsstring)
    (out : outcome) (d : state) :
  retry_loop env args chunks maxAttempts 1 empty_state = (out, d) ->
  Forall (fun r => In (content r) chunks) (table d).
Proof.
  intros E.
  assert (forall vectors attempt,
            Forall (fun r => In (content r) chunks)
                   (make_rows env args vectors attempt chunks)) as Hrows.
  { intros vectors attempt. apply List.Forall_forall. intros r Hr.
    rewrite <- (make_rows_content env args chunks vectors attempt).
    by apply in_map. }
  unfold_attempts E. split_attempts E; injection E as <- <-; simpl;
    repeat first [ apply Forall_nil_2 | apply Forall_app_2
                 | apply Forall_take | apply Hrows ].
Qed.

(** C5. [ingest] makes at most three attempts, numbered from 1, and
    sleeps [1000 * 2 ^ (attempt - 1)] ms after a failed attempt that is
    not the last: 1000 ms, then 2000 ms. It ends either with success or,
    after the third failed attempt only, with the error that names the
    count of 3. When the embedding service fails on all three attempts
    nothing is written. When it fails on the attempts before the [k]-th
    and the [k]-th attempt goes through, the call succeeds and the rows
    it wrote are the chunks, each once and in order. *)
Theorem ingest_retry_policy (env : environment) (args : ingest_args) (st : state) :
  exists chunks out d,
    chunkText_fuel (S (length (arg_text args))) (arg_text args)
                   default_size default_overlap = Some chunks
    /\ ingest env args st = Some (out, extend st d)
    /\ (exists n, (1 <= n <= 3)%nat
          /\ embed_calls (trace d) = seq 1 n
          /\ sleeps (trace d) = map backoff_delay (seq 1 (n - 1))
          /\ sleeps (trace d) = take (n - 1) [1000; 2000]%Z
          /\ (out = Resolved true (length chunks)
              \/ out = Rejected failure_message /\ n = 3%nat))
    /\ ((forall a, (1 <= a <= 3)%nat -> embedMany env a chunks = EmbedRejects) ->
        out = Rejected failure_message /\ table d = []
        /\ embed_calls (trace d) = [1; 2; 3]%nat
        /\ sleeps (trace d) = [1000; 2000]%Z)
    /\ (forall k vectors, (1 <= k <= 3)%nat ->
          (forall a, (1 <= a < k)%nat -> embedMany env a chunks = EmbedRejects) ->
          embedMany env k chunks = EmbedResolves vectors ->
          db_insert env k (make_rows env args vectors k chunks) = InsertResolves ->
          out = Resolved true (length chunks)
          /\ table d = make_rows env args vectors k chunks
          /\ map content (table d) = chunks
          /\ sleeps (trace d) = map backoff_delay (seq 1 (k - 1)))
    /\ failure_message
       = of_string "Falha ao inserir embeddings ap" ++ [243%N]
         ++ of_string "s 3 tentativas".
Proof.
  destruct (ingest_unfold env args st) as (chunks & Hc & Hi).
  destruct (retry_loop env args chunks maxAttempts 1 empty_state)
    as [out d] eqn:E.
  exists chunks, out, d. split; [done|]. split; [done|].
  split; [|split; [|split; [|reflexivity]]].
  - unfold_attempts E. split_attempts E; injection E as <- <-;
      first [ by exists 1%nat; repeat split; auto
            | by exists 2%nat; repeat split; auto
            | by exists 3%nat; repeat split; auto ].
  - intros Hall. unfold_attempts E.
    rewrite !Hall in E by lia. simpl in E. injection E as <- <-. done.
  - intros k vectors Hk Hfail Hok Hins.
    assert (k = 1 \/ k = 2 \/ k = 3)%nat as [-> | [-> | ->]] by lia;
      unfold_attempts E;
      rewrite ?(Hfail 1%nat), ?(Hfail 2%nat) in E by lia;
      rewrite Hok in E; simpl in E; rewrite Hins in E; simpl in E;
      injection E as <- <-; simpl;
      by rewrite make_rows_content.
Qed.

Lemma ingest_retry_policy_witness :
  let args := scenario_args (of_string "hello world") in
  exists d,
    ingest (embedding_fails_before 3) args empty_state
    = Some (Resolved true 1, extend empty_state d)
    /\ map content (table d) = [of_string "hello world"]
    /\ sleeps (trace d) = [1000; 2000]%Z.
Proof.
  intros args.
  destruct (ingest_retry_policy (embedding_fails_before 3) args empty_state)
    as (chunks & out & d & Hc & Hi & _ & _ & Hk & _).
  injection Hc as <-.
  destruct (Hk 3%nat (scenario_vectors [of_string "hello world"]))
    as (-> & _ & Hcontent & Hsleeps);
    [lia | intros a Ha; by destruct a as [|[|[|a]]]; try lia
    | reflexivity | reflexivity |].
  exists d. split; [exact Hi|]. split; [exact Hcontent | exact Hsleeps].
Defined.

(** C2 (amended). [ingest] hands all rows of an attempt to the store in
    one insert and never deletes a row. On a store that executes each
    multi-row insert atomically, a call ends in one of two ways: it
    succeeds and has appended one row per chunk, in order, all under the
    resource id of the call; or it fails with the attempt-count error
    and has appended nothing. *)
Theorem ingest_all_or_nothing_on_atomic_store
    (env : environment) (args : ingest_args) (st : state) :
  atomic_inserts env ->
  exists chunks out d,
    chunkText_fuel (S (length (arg_text args))) (arg_text args)
                   default_size default_overlap = Some chunks
    /\ ingest env args st = Some (out, extend st d)
    /\ (out = Resolved true (length chunks)
        /\ map content (table d) = chunks
        /\ Forall (fun r => resourceId r = arg_resourceId args) (table d)
        \/ out = Rejected failure_message /\ table d = []).
Proof.
  intros Hatomic.
  destruct (ingest_unfold env args st) as (chunks & Hc & Hi).
  destruct (retry_loop env args chunks maxAttempts 1 empty_state)
    as [out d] eqn:E.
  exists chunks, out, d. split; [done|]. split; [done|].
  unfold_attempts E. split_attempts E;
    repeat match goal with
           | H : db_insert env ?a ?r = InsertRejects ?k |- _ =>
               assert (k = 0%nat) as ->
                 by (destruct (Hatomic a r) as [X|X]; rewrite X in H; congruence);
               clear H
           end;
    simpl in E; injection E as <- <-; simpl;
    first [ by right
          | left; split; [done|];
            split; [apply make_rows_content | apply make_rows_resourceId] ].
Qed.

Lemma ingest_all_or_nothing_on_atomic_store_witness :
  let env := insert_fails_before 4 0 in
  let args := scenario_args (of_string "hello world") in
  atomic_inserts env
  /\ exists chunks out d,
       chunkText_fuel (S (length (arg_text args))) (arg_text args)
                      default_size default_overlap = Some chunks
       /\ ingest env args empty_state = Some (out, extend empty_state d)
       /\ (out = Resolved true (length chunks)
           /\ map content (table d) = chunks
           /\ Forall (fun r => resourceId r = arg_resourceId args) (table d)
           \/ out = Rejected failure_message /\ table d = []).
Proof.
  intros env args.
  assert (atomic_inserts env) as Hatomic.
  { intros a rows. simpl. destruct (a <? 4)%nat; auto. }
  split; [exact Hatomic|].
  exact (ingest_all_or_nothing_on_atomic_store env args empty_state Hatomic).
Defined.

(** C2, as stated, fails: nothing in [ingest] rolls back. On a store
    that leaves the first two of five rows behind when an insert fails,
    the call fails after three attempts and the six rows left by its
    three inserts stay in the table. *)
Lemma ingest_leaves_partial_rows :
  let env := insert_fails_before 4 2 in
  let args := scenario_args (repeat 97%N 3300) in
  exists chunks st',
    chunkText_fuel (S (length (arg_text args))) (arg_text args)
                   default_size default_overlap = Some chunks
    /\ length chunks = 5%nat
    /\ ingest env args empty_state = Some (Rejected failure_message, st')
    /\ length (table st') = 6%nat
    /\ Forall (fun r => resourceId r = arg_resourceId args) (table st').
Proof.
  intros env args.
  destruct (ingest env args empty_state) as [[out st']|] eqn:E;
    vm_compute in E; [|discriminate E].
  injection E as <- <-.
  eexists _, _. split; [vm_compute; reflexivity|].
  split; [reflexivity|]. split; [reflexivity|]. split; [reflexivity|].
  repeat constructor.
Qed.




(** C9. For [overlap < size], [chunkText] returns, in order, the trimmed
    window slices of the text that are not empty, and no chunk it
    returns begins or ends with white space. The content of every row
    that [ingest] leaves in the table is such a chunk, so it neither
    begins nor ends with white space. *)
Theorem chunkText_chunks_are_trimmed
    (text : jsstring) (size overlap : Z) (fuel : nat) :
  (overlap < size)%Z -> (length text < fuel)%nat ->
  (exists chunks,
     chunkText_fuel fuel text size overlap = Some chunks
     /\ chunks = List.filter Boolean
                   (map (fun k => trim (slice text
                                          (Z.of_nat k * (size - overlap))
                                          (Z.of_nat k * (size - overlap) + size)))
                        (seq 0 (length (windows text size overlap))))
     /\ Forall (fun c => starts_with_whitespace c = false
                         /\ ends_with_whitespace c = false) chunks)
  /\ forall env args st,
       exists out d,
         ingest env args st = Some (out, extend st d)
         /\ Forall (fun r => starts_with_whitespace (content r) = false
                             /\ ends_with_whitespace (content r) = false)
                   (table d).
Proof.
  intros Hs Hf.
  assert (forall l, Forall (fun c => starts_with_whitespace c = false
                                     /\ ends_with_whitespace c = false)
                           (List.filter Boolean (map trim l))) as Htrim.
  { intros l. apply List.Forall_forall. intros c Hc.
    apply filter_In in Hc as [Hc _].
    apply in_map_iff in Hc as (w & <- & _).
    split; [apply trim_no_leading_whitespace | apply trim_no_trailing_whitespace]. }
  split.
  - eexists. split; [|split; [reflexivity|]].
    + rewrite chunkText_fuel_returns by (try apply fuel_suffices; done).
      do 2 f_equal. unfold windows at 1. rewrite map_map, windows_length.
      done.
    + rewrite <- map_map. apply Htrim.
  - intros env args st.
    destruct (ingest_unfold env args st) as (chunks & Hc & Hi).
    destruct (retry_loop env args chunks maxAttempts 1 empty_state)
      as [out d] eqn:E.
    exists out, d. split; [done|].
    rewrite chunkText_enough_fuel in Hc by done. injection Hc as <-.
    apply retry_loop_rows_from_chunks in E.
    eapply Forall_impl; [exact E|]. intros r Hr. simpl in Hr.
    specialize (Htrim (windows (arg_text args) default_size default_overlap)).
    rewrite List.Forall_forall in Htrim. by apply Htrim.
Qed.

Lemma chunkText_chunks_are_trimmed_witness :
  exists chunks,
    chunkText_fuel 12 (of_string "  ab  cd  ") 4 1 = Some chunks
    /\ Forall (fun c => starts_with_whitespace c = false
                        /\ ends_with_whitespace c = false) chunks.
Proof.
  destruct (chunkText_chunks_are_trimmed (of_string "  ab  cd  ") 4 1 12)
    as [(chunks & E & _ & H) _]; [lia | simpl; lia |].
  by exists chunks.
Defined.

End IngestClaims.

(** ** Retrieval: ordering *)

Import Retrieval.

Section Ordering.

Lemma gt_spec (x y : Q) : gt x y = true <-> (y < x)%Q.
Proof.
  unfold gt. rewrite negb_true_iff. split.
  - intros H. apply Qnot_le_lt. intros Hle.
    apply Qle_bool_iff in Hle. congruence.
  - intros H. destruct (Qle_bool x y) eqn:E; [|done].
    apply Qle_bool_iff in E. exfalso. by apply (Qlt_not_le y x).
Qed.

#[local] Instance desc_transitive : Transitive desc.
Proof. intros a b c Hab Hbc. unfold desc in *. by apply (Qle_trans _ (similarity b)). Qed.

Lemma desc_total (a b : result_row) :
  Qle_bool (similarity b) (similarity a) = false -> desc b a.
Proof.
  intros H. unfold desc. apply Qlt_le_weak, Qnot_le_lt.
  intros Hle. apply Qle_bool_iff in Hle. congruence.
Qed.

Lemma insert_desc_perm (x : result_row) (l : list result_row) :
  insert_desc x l ≡ₚ x :: l.
Proof.
  induction l as [|y l IH]; simpl; [done|].
  destruct (Qle_bool (similarity y) (similarity x)); [done|].
  rewrite IH. apply perm_swap.
Qed.

Lemma insert_desc_sorted (x : result_row) (l : list result_row) :
  StronglySorted desc l -> StronglySorted desc (insert_desc x l).
Proof.
  induction 1 as [|y l Hl IH Hy]; simpl.
  - repeat constructor.
  - destruct (Qle_bool (similarity y) (similarity x)) eqn:E.
    + apply Qle_bool_iff in E. constructor; [by constructor|].
      constructor; [done|].
      eapply Forall_impl; [exact Hy|]. intros z Hz. by trans y.
    + constructor; [done|].
      rewrite insert_desc_perm. constructor; [by apply desc_total | done].
Qed.

Lemma sort_desc_orders (l : list result_row) : order_by_desc l (sort_desc l).
Proof.
  unfold order_by_desc, sort_desc. induction l as [|x l [IHp IHs]]; simpl.
  - split; [done | constructor].
  - split; [by rewrite insert_desc_perm, <- IHp | by apply insert_desc_sorted].
Qed.

Lemma take_sorted (n : nat) (l : list result_row) :
  StronglySorted desc l -> StronglySorted desc (take n l).
Proof.
  intros H. rewrite <- (take_drop n l) in H.
  by apply StronglySorted_app_1_l in H.
Qed.

Lemma take_beats_drop (n : nat) (l : list result_row) :
  StronglySorted desc l ->
  Forall (fun x => Forall (fun e => desc e x) (take n l)) (drop n l).
Proof.
  intros H. rewrite <- (take_drop n l) in H.
  apply Forall_forall. intros x Hx. apply Forall_forall. intros e He.
  exact (StronglySorted_app_1_elem_of desc _ _ e x H He Hx).
Qed.

Lemma limited_length (rows ordered : list result_row) (n : nat) :
  order_by_desc rows ordered -> length (take n ordered) = (n `min` length rows)%nat.
Proof. intros [Hp _]. by rewrite length_take, Hp. Qed.

(** Lists of pairwise tied rows of equal length agree rank by rank. *)
Lemma ties_Forall2 (c : Q) (l1 l2 : list result_row) :
  Forall (fun x => (similarity x == c)%Q) l1 ->
  Forall (fun x => (similarity x == c)%Q) l2 ->
  length l1 = length l2 -> Forall2 tie l1 l2.
Proof.
  intros H1. revert l2. induction H1 as [|x l1 Hx _ IH]; intros l2 H2 Hlen.
  - destruct l2; [constructor | done].
  - destruct l2 as [|y l2]; [done|]. inversion H2; subst.
    constructor; [|apply IH; [done | by injection Hlen]].
    unfold tie. by rewrite Hx.
Qed.

Lemma tie_Forall2_refl (l : list result_row) : Forall2 tie l l.
Proof. induction l; constructor; [unfold tie; reflexivity | done]. Qed.

Lemma tie_Forall2_trans (l1 l2 l3 : list result_row) :
  Forall2 tie l1 l2 -> Forall2 tie l2 l3 -> Forall2 tie l1 l3.
Proof.
  intros H. revert l3. induction H as [|a b l1 l2 Hab _ IH]; intros l3 H3.
  - inversion H3. constructor.
  - inversion H3; subst. constructor; [|by apply IH].
    unfold tie in *. by rewrite Hab.
Qed.

(** Two descending orderings of the same rows show the same similarity
    at every rank. *)
Lemma orderings_agree_on_similarity (l1 l2 : list result_row) :
  l1 ≡ₚ l2 -> StronglySorted desc l1 -> StronglySorted desc l2 ->
  Forall2 tie l1 l2.
Proof.
  revert l2. induction l1 as [|a l1 IH]; intros l2 Hp H1 H2.
  - apply Permutation_nil in Hp as ->. constructor.
  - destruct l2 as [|b l2]; [by apply Permutation_sym, Permutation_nil_cons in Hp|].
    apply StronglySorted_cons in H1 as [Ha H1].
    apply StronglySorted_cons in H2 as [Hb H2].
    assert (a ∈ b :: l2) as Hin by (rewrite <- Hp; left).
    assert (b ∈ a :: l1) as Hin' by (rewrite Hp; left).
    assert (tie a b) as Hab.
    { unfold tie. apply Qle_antisym.
      - apply elem_of_cons in Hin as [->|Hin]; [apply Qle_refl|].
        rewrite Forall_forall in Hb. by apply Hb.
      - apply elem_of_cons in Hin' as [->|Hin']; [apply Qle_refl|].
        rewrite Forall_forall in Ha. by apply Ha. }
    constructor; [done|].
    apply elem_of_cons in Hin as [->|Hin].
    { apply IH; [by apply Permutation_cons_inv in Hp | done | done]. }
    apply list_elem_of_split in Hin as (pre & post & ->).
    assert (l1 ≡ₚ b :: pre ++ post) as Hp'.
    { apply (Permutation_cons_inv (a:=a)). rewrite Hp.
      by rewrite (Permutation_middle (b :: pre) post a). }
    apply StronglySorted_app in H2 as (Hcross & Hpre & Hpost).
    apply StronglySorted_cons in Hpost as [Hapost Hpost].
    apply Forall_app in Hb as [Hbpre Hbpost].
    apply Forall_cons in Hbpost as [_ Hbpost].
    assert (Forall (fun x => (similarity x == similarity a)%Q) pre) as Hties.
    { apply Forall_forall. intros p Hp0. apply Qle_antisym.
      - rewrite Forall_forall in Hbpre. unfold tie in Hab. rewrite Hab.
        by apply Hbpre.
      - apply (Hcross p a); [done | left]. }
    eapply tie_Forall2_trans.
    + apply IH; [exact Hp' | done |].
      apply StronglySorted_cons. split; [by apply Forall_app|].
      apply StronglySorted_app. split; [|done].
      intros x1 x2 Hx1 Hx2. apply Hcross; [done | by right].
    + change (b :: pre ++ post) with ((b :: pre) ++ post).
      rewrite (cons_middle a pre post), app_assoc.
      apply Forall2_app; [|apply tie_Forall2_refl].
      apply (ties_Forall2 (similarity a)).
      * constructor; [by symmetry | done].
      * apply Forall_app. split; [done|]. by repeat constructor.
      * rewrite length_app. simpl. lia.
Qed.

End Ordering.

(** ** Retrieval: the claims *)

Section RetrievalClaims.

Variable embed : jsstring -> vector.
Variable cosineDistance : vector -> vector -> Q.

Lemma where_select_In (min : Q) (q : vector) (tbl : list embeddings_row)
    (e : result_row) :
  In e (where_select cosineDistance min q tbl) ->
  (min < similarity e)%Q
  /\ exists r, In r tbl /\ name e = row_content r
               /\ similarity e = similarity_to cosineDistance q r.
Proof.
  unfold where_select. intros H.
  apply in_map_iff in H as (r & <- & Hr).
  apply filter_In in Hr as [Hr Hgt]. apply gt_spec in Hgt.
  split; [done|]. by exists r.
Qed.

Lemma run_is_result (tbl : list embeddings_row) (userQuery : jsstring) :
  findRelevantContent embed cosineDistance tbl userQuery
    (findRelevantContent_run embed cosineDistance tbl userQuery).
Proof.
  unfold findRelevantContent, findRelevantContent_run.
  eexists. split; [apply sort_desc_orders | done].
Qed.

(** C3 (amended). [findRelevantContent] takes the query alone; its
    threshold 0.3 and its limit 4 are constants. The query has a
    result, and every result is a list of [{name, similarity}] records
    ranked in descending similarity, in which [name] is the content of a
    stored row and [similarity] is 1 minus the cosine distance of that
    row to the embedded query, every entry has a similarity above 0.3,
    and the entries are the 4 best of the rows above 0.3, or all of
    them when they are fewer. *)
Theorem findRelevantContent_results
    (tbl : list embeddings_row) (userQuery : jsstring)
    (results : list result_row) :
  findRelevantContent embed cosineDistance tbl userQuery results ->
  let q := generateEmbedding embed userQuery in
  let qualifying := where_select cosineDistance (3 # 10) q tbl in
  StronglySorted desc results
  /\ Forall (fun e =>
               (3 # 10 < similarity e)%Q
               /\ exists r, In r tbl /\ name e = row_content r
                            /\ similarity e = similarity_to cosineDistance q r)
            results
  /\ length results = (4 `min` length qualifying)%nat
  /\ (exists rest,
        results ++ rest ≡ₚ qualifying
        /\ Forall (fun x => Forall (fun e => (similarity x <= similarity e)%Q)
                                   results) rest).
Proof.
  intros (ordered & Hord & ->) q qualifying.
  pose proof Hord as [Hp Hs].
  split; [by apply take_sorted|]. split; [|split].
  - apply Forall_take. rewrite <- Hp. apply List.Forall_forall.
    intros e He. by apply where_select_In in He.
  - by apply (limited_length _ _ limit Hord).
  - exists (drop limit ordered). split; [by rewrite take_drop|].
    by apply take_beats_drop.
Qed.

(** C8 (amended). The query orders by similarity alone. Two results of
    [findRelevantContent] for the same table and query have the same
    length and the same similarity at every rank; they are the same
    list when rows of equal similarity among those above the threshold
    are equal rows. Which of several tied rows comes first is left to
    the storage engine. *)
Theorem findRelevantContent_deterministic_up_to_ties
    (tbl : list embeddings_row) (userQuery : jsstring)
    (results1 results2 : list result_row) :
  findRelevantContent embed cosineDistance tbl userQuery results1 ->
  findRelevantContent embed cosineDistance tbl userQuery results2 ->
  Forall2 tie results1 results2
  /\ ((forall x y,
         In x (where_select cosineDistance threshold
                            (generateEmbedding embed userQuery) tbl) ->
         In y (where_select cosineDistance threshold
                            (generateEmbedding embed userQuery) tbl) ->
         tie x y -> x = y) ->
      results1 = results2).
Proof.
  intros (o1 & [Hp1 Hs1] & ->) (o2 & [Hp2 Hs2] & ->).
  assert (o1 ≡ₚ o2) as Hp by (by rewrite <- Hp1, <- Hp2).
  split.
  - apply Forall2_take. by apply orderings_agree_on_similarity.
  - intros Hties. f_equal.
    apply (StronglySorted_unique_strong desc); [|done..].
    intros x1 x2 Hx1 Hx2 H12 H21.
    apply Hties.
    + apply list_elem_of_In. by rewrite Hp1.
    + apply list_elem_of_In. by rewrite Hp2.
    + unfold tie. by apply Qle_antisym.
Qed.

End RetrievalClaims.

Lemma findRelevantContent_results_witness :
  let tbl := [scenario_row "A" (1 # 10); scenario_row "B" (5 # 10);
              scenario_row "C" (8 # 10)] in
  let results := [scenario_result "A" (1 # 10); scenario_result "B" (5 # 10)] in
  findRelevantContent scenario_embed scenario_distance tbl [] results
  /\ StronglySorted desc results
  /\ length results = 2%nat.
Proof.
  intros tbl results.
  assert (findRelevantContent scenario_embed scenario_distance tbl [] results)
    as H by apply (run_is_result scenario_embed scenario_distance tbl []).
  split; [exact H|].
  destruct (findRelevantContent_results scenario_embed scenario_distance
              tbl [] results H) as (Hs & _ & Hl & _).
  split; [exact Hs | exact Hl].
Defined.

(** C3, as stated, fails: the function has no [topK] and no
    [minSimilarity]. With five rows above 0.3 in the table, the
    contract asks for five entries at [topK = 5], and every result of
    [findRelevantContent] has four. *)
Lemma findRelevantContent_ignores_topK :
  let tbl := [scenario_row "A" (1 # 10); scenario_row "B" (2 # 10);
              scenario_row "C" (3 # 10); scenario_row "D" (4 # 10);
              scenario_row "E" (5 # 10)] in
  (4 <= 5 <= 10)%nat /\ (3 # 10 <= 3 # 10 <= 7 # 10)%Q
  /\ (exists results,
        findRelevantContent scenario_embed scenario_distance tbl [] results)
  /\ forall results,
       findRelevantContent scenario_embed scenario_distance tbl [] results ->
       ~ findRelevant_contract scenario_embed scenario_distance 5 (3 # 10)
           tbl [] results.
Proof.
  intros tbl. split; [lia|]. split; [split; by apply Qle_bool_iff|].
  split; [eexists; apply run_is_result|].
  intros results (o1 & H1 & ->) (o2 & H2 & E).
  apply (f_equal length) in E.
  rewrite (limited_length _ _ _ H1), (limited_length _ _ _ H2) in E.
  vm_compute in E. discriminate E.
Qed.

Lemma findRelevantContent_deterministic_up_to_ties_witness :
  let tbl := [scenario_row "A" (1 # 10); scenario_row "B" (5 # 10);
              scenario_row "C" (8 # 10)] in
  let results := [scenario_result "A" (1 # 10); scenario_result "B" (5 # 10)] in
  findRelevantContent scenario_embed scenario_distance tbl [] results
  /\ Forall2 tie results results.
Proof.
  intros tbl results.
  assert (findRelevantContent scenario_embed scenario_distance tbl [] results)
    as H by apply (run_is_result scenario_embed scenario_distance tbl []).
  split; [exact H|].
  exact (proj1 (findRelevantContent_deterministic_up_to_ties
                  scenario_embed scenario_distance tbl [] results results H H)).
Defined.

(** C8, as stated, fails: with A stored before D and both at similarity
    0.9, the list with D before A is a result of the query as much as
    the list with A before D. *)
Lemma findRelevantContent_tie_order_unspecified :
  let tbl := [scenario_row "A" (1 # 10); scenario_row "D" (1 # 10)] in
  let a := scenario_result "A" (1 # 10) in
  let d := scenario_result "D" (1 # 10) in
  findRelevantContent scenario_embed scenario_distance tbl [] [a; d]
  /\ findRelevantContent scenario_embed scenario_distance tbl [] [d; a]
  /\ [a; d] <> [d; a].
Proof.
  intros tbl a d.
  assert (StronglySorted desc [a; d] /\ StronglySorted desc [d; a]) as [Had Hda].
  { split; repeat constructor; by apply Qle_bool_iff. }
  split; [|split].
  - exists [a; d]. split; [|done]. split; [done | exact Had].
  - exists [d; a]. split; [|done]. split; [apply perm_swap | exact Hda].
  - discriminate.
Qed.

(** ** Conversations and messages: the foreign key *)

Import ChatSchema.

Section ForeignKey.

Lemma fk_holds_empty : fk_holds empty_database.
Proof. intros id m H. simpl in H. by rewrite lookup_empty in H. Qed.

Lemma not_referenced (db : database) (cid : string) :
  referenced db cid = false ->
  forall id m, messages db !! id = Some m -> conversation_id m <> cid.
Proof.
  unfold referenced. intros H id m Hm Hc.
  apply bool_decide_eq_false in H. apply H. by exists id, m.
Qed.

Lemma exec_preserves_fk (s : statement) (db db' : database) :
  fk_holds db -> exec s db = Some db' -> fk_holds db'.
Proof.
  intros Hfk He.
  destruct s as [cid c | cid | cid new_id | mid m | mid | mid new_cid];
    simpl in He.
  - destruct (conversations db !! cid) eqn:E; [done|].
    injection He as <-. intros i m Hm. simpl in *.
    destruct (decide (cid = conversation_id m)) as [->|Hne].
    + rewrite lookup_insert_eq. by eexists.
    + rewrite lookup_insert_ne by done. by apply (Hfk i).
  - injection He as <-. intros i m Hm. simpl in *.
    apply map_lookup_filter_Some in Hm as [Hm Hne]. simpl in Hne.
    rewrite lookup_delete_ne by done. by apply (Hfk i).
  - destruct (conversations db !! cid) as [c|] eqn:E; [|by injection He as <-].
    destruct (decide (new_id = cid)); [by injection He as <-|].
    destruct (referenced db cid) eqn:Hr; [done|].
    destruct (conversations db !! new_id) eqn:E'; [done|].
    injection He as <-. intros i m Hm. simpl in *.
    destruct (decide (new_id = conversation_id m)) as [->|Hne].
    + rewrite lookup_insert_eq. by eexists.
    + rewrite lookup_insert_ne by done.
      rewrite lookup_delete_ne; [by apply (Hfk i)|].
      intros Heq. by apply (not_referenced db cid Hr i m).
  - destruct (messages db !! mid) eqn:E; [done|].
    destruct (conversations db !! conversation_id m) eqn:E'; [|done].
    injection He as <-. intros i m' Hm. simpl in *.
    destruct (decide (mid = i)) as [->|Hne].
    + rewrite lookup_insert_eq in Hm. injection Hm as <-. by rewrite E'.
    + rewrite lookup_insert_ne in Hm by done. by apply (Hfk i).
  - injection He as <-. intros i m Hm. simpl in *.
    apply lookup_delete_Some in Hm as [_ Hm]. by apply (Hfk i).
  - destruct (messages db !! mid) as [m|] eqn:E; [|by injection He as <-].
    destruct (conversations db !! new_cid) eqn:E'; [|done].
    injection He as <-. intros i m' Hm. simpl in *.
    destruct (decide (mid = i)) as [->|Hne].
    + rewrite lookup_insert_eq in Hm. injection Hm as <-. simpl. by rewrite E'.
    + rewrite lookup_insert_ne in Hm by done. by apply (Hfk i).
Qed.

Lemma step_preserves_fk (s : statement) (db : database) :
  fk_holds db -> fk_holds (step db s).
Proof.
  intros H. unfold step. destruct (exec s db) eqn:E; [|done].
  by apply (exec_preserves_fk s db).
Qed.

Lemma run_preserves_fk (ss : list statement) (db : database) :
  fk_holds db -> fk_holds (run ss db).
Proof.
  revert db. induction ss as [|s ss IH]; intros db H; [done|].
  simpl. apply IH. by apply step_preserves_fk.
Qed.

(** C10. The empty database has no dangling message, and from any
    database in which each message references an existing conversation
    every sequence of statements leads to such a database again. In
    such a database a message for a conversation that does not exist
    is rejected, and deleting a conversation is always accepted: it
    removes the conversation and exactly the messages that reference
    it, leaves the other conversations and messages as they were, and
    the messages that remain still reference existing conversations. *)
Theorem messages_never_outlive_conversation
    (db : database) (ss : list statement) (cid : string) :
  fk_holds db ->
  fk_holds empty_database
  /\ fk_holds (run ss db)
  /\ (forall mid m, conversations db !! conversation_id m = None ->
        exec (InsertMessage mid m) db = None)
  /\ exists db',
       exec (DeleteConversation cid) db = Some db'
       /\ conversations db' !! cid = None
       /\ (forall id m, messages db' !! id = Some m <->
                        messages db !! id = Some m /\ conversation_id m <> cid)
       /\ (forall id, id <> cid ->
                      conversations db' !! id = conversations db !! id)
       /\ fk_holds db'.
Proof.
  intros Hfk.
  split; [apply fk_holds_empty|]. split; [by apply run_preserves_fk|].
  split.
  { intros mid m Hnone. simpl. rewrite Hnone.
    by destruct (messages db !! mid). }
  eexists. split; [reflexivity|]. simpl.
  split; [apply lookup_delete_eq|]. split; [|split].
  - intros id m. by rewrite map_lookup_filter_Some.
  - intros i Hne. by rewrite lookup_delete_ne.
  - by apply (exec_preserves_fk (DeleteConversation cid) db).
Qed.

Lemma messages_never_outlive_conversation_witness :
  let c := {| user_id := "u1"; conv_title := None;
              conv_created_at := 0; conv_updated_at := 0 |} in
  let m (cid : string) := {| conversation_id := cid; role := "user";
                             msg_content := "oi"; tool_calls := None;
                             tool_results := None; msg_created_at := 0 |} in
  let db := {| conversations := {[ "c1" := c; "c2" := c ]};
               messages := {[ "m1" := m "c1"; "m2" := m "c1";
                              "m3" := m "c2" ]} |} in
  fk_holds db
  /\ messages db !! "m1" = Some (m "c1")
  /\ exists db',
       exec (DeleteConversation "c1") db = Some db'
       /\ conversations db' !! "c1" = None
       /\ messages db' !! "m1" = None
       /\ messages db' !! "m2" = None
       /\ messages db' !! "m3" = Some (m "c2")
       /\ fk_holds db'.
Proof.
  intros c m db.
  assert (fk_holds db) as Hfk.
  { change (map_Forall (fun _ m0 => is_Some (conversations db !! conversation_id m0))
                       (messages db)).
    apply (bool_decide_unpack _). by vm_compute. }
  split; [exact Hfk|]. split; [by vm_compute|].
  destruct (messages_never_outlive_conversation db [] "c1" Hfk)
    as (_ & _ & _ & db' & He & Hc & Hm & _ & Hfk').
  exists db'. split; [exact He|]. split; [exact Hc|].
  assert (forall id, messages db !! id = Some (m "c1") ->
                     messages db' !! id = None) as Hgone.
  { intros id Hid. destruct (messages db' !! id) as [x|] eqn:E; [|done].
    apply Hm in E as [E Hne]. rewrite Hid in E. injection E as <-. done. }
  split; [apply Hgone; by vm_compute|].
  split; [apply Hgone; by vm_compute|].
  split; [|exact Hfk'].
  apply Hm. split; [by vm_compute | done].
Defined.

End ForeignKey.

(** Deleting a conversation takes its messages with it and leaves the
    messages of the other conversations. *)
Example delete_conversation_cascades :
  let c := {| user_id := "u1"; conv_title := None;
              conv_created_at := 0; conv_updated_at := 0 |} in
  let m (cid : string) := {| conversation_id := cid; role := "user";
                             msg_content := "oi"; tool_calls := None;
                             tool_results := None; msg_created_at := 0 |} in
  let db := run [InsertConversation "c1" c; InsertConversation "c2" c;
                 InsertMessage "m1" (m "c1"); InsertMessage "m2" (m "c1");
                 InsertMessage "m3" (m "c2"); InsertMessage "m4" (m "c9");
                 DeleteConversation "c1"] empty_database in
  messages db = {[ "m3" := m "c2" ]} /\ dom (conversations db) = {[ "c2" ]}.
Proof. split; by vm_compute. Qed.

(** The sentence chunker drops the full stops and keeps inner white
    space. *)
Example generateChunks_example :
  generateChunks (of_string " a. b.. c ")
  = [of_string "a"; of_string " b"; of_string " c"].
Proof. reflexivity. Qed.

(** The fixed-window chunker on a short text, size 4 and overlap 1. *)
Example chunkText_example :
  chunkText_fuel 10 (of_string "ab cd  ef") 4 1
  = Some [of_string "ab c"; of_string "cd"; of_string "ef"].
Proof. reflexivity. Qed.

(** * Further properties of the code *)

(** ** The fixed-window chunker *)

Section ChunkingFurther.

(** [chunkText] returns exactly when the text is empty or the overlap is
    below the size. *)
Theorem chunkText_returns_iff (text : jsstring) (size overlap : Z) :
  (exists chunks, chunkText_returns text size overlap chunks)
  <-> text = [] \/ (overlap < size)%Z.
Proof.
  split.
  - intros (chunks & fuel & H).
    destruct text as [|c text]; [by left|]. right.
    destruct (Z.lt_ge_cases overlap size) as [|Hge]; [done|].
    unfold chunkText_fuel in H.
    by rewrite chunk_loop_stuck in H.
  - intros [->|Hlt].
    + exists [], 1%nat. reflexivity.
    + eexists. exists (S (length text)). by apply chunkText_enough_fuel.
Qed.

Lemma trim_length (s : jsstring) : (length (trim s) <= length s)%nat.
Proof.
  destruct (trim_substring s) as (pre & suf & E).
  rewrite E at 2. rewrite !length_app. lia.
Qed.

(** No chunk is longer than [size]. *)
Theorem chunkText_chunk_length
    (text : jsstring) (size overlap : Z) (fuel : nat) :
  (overlap < size)%Z -> (0 <= size)%Z -> (length text < fuel)%nat ->
  exists chunks,
    chunkText_fuel fuel text size overlap = Some chunks
    /\ Forall (fun c => (length c <= Z.to_nat size)%nat) chunks.
Proof.
  intros Hs Hz Hf. eexists. split.
  - apply chunkText_fuel_returns; [done | by apply fuel_suffices].
  - apply List.Forall_forall. intros c Hc.
    apply filter_In in Hc as [Hc _].
    apply in_map_iff in Hc as (w & <- & Hw).
    unfold windows in Hw. apply in_map_iff in Hw as (k & <- & _).
    etrans; [apply trim_length|].
    unfold window. cbv zeta.
    rewrite slice_take_drop by (try apply Z.mul_nonneg_nonneg; lia).
    apply firstn_le_length.
Qed.

Lemma chunkText_chunk_length_witness :
  exists chunks,
    chunkText_fuel 10 (of_string "ab cd  ef") 4 1 = Some chunks
    /\ Forall (fun c => (length c <= 4)%nat) chunks.
Proof.
  apply (chunkText_chunk_length (of_string "ab cd  ef") 4 1 10);
    [lia | lia | simpl; lia].
Defined.

(** Consecutive windows overlap: what a window holds after its first
    [size - overlap] code units is what the next window begins with,
    and these are [overlap] code units when the window is cut at full
    size. *)
Theorem windows_share_overlap
    (text : jsstring) (size overlap : Z) (k : nat) :
  (0 <= overlap < size)%Z ->
  drop (Z.to_nat (size - overlap)) (window text size overlap k)
  = take (Z.to_nat overlap) (window text size overlap (S k))
  /\ ((Z.of_nat k * (size - overlap) + size <= Z.of_nat (length text))%Z ->
      length (drop (Z.to_nat (size - overlap)) (window text size overlap k))
      = Z.to_nat overlap).
Proof.
  intros H. rewrite !window_take_drop by done.
  set (st := Z.to_nat (size - overlap)). set (sz := Z.to_nat size).
  assert (Z.to_nat overlap = sz - st)%nat as -> by (unfold sz, st; lia).
  split.
  - rewrite skipn_firstn_comm, drop_drop, take_take.
    rewrite Nat.min_l by lia. do 2 f_equal. lia.
  - intros Hfull. rewrite length_drop, length_take, length_drop.
    assert (k * st + sz <= length text)%nat; [|lia].
    apply Nat2Z.inj_le. rewrite Nat2Z.inj_add, Nat2Z.inj_mul.
    unfold st, sz. rewrite !Z2Nat.id by lia. done.
Qed.

Lemma windows_share_overlap_witness :
  let text := of_string "abcdefgh" in
  drop 3 (window text 4 1 0) = take 1 (window text 4 1 1)
  /\ length (drop 3 (window text 4 1 0)) = 1%nat.
Proof.
  intros text.
  destruct (windows_share_overlap text 4 1 0 ltac:(lia)) as [H1 H2].
  split; [exact H1 | apply H2; simpl; lia].
Defined.

(** A text that is not blank and no longer than one step is one chunk:
    the text, trimmed. *)
Theorem chunkText_short_text
    (text : jsstring) (size overlap : Z) (fuel : nat) :
  (0 <= overlap < size)%Z ->
  (0 < Z.of_nat (length text) <= size - overlap)%Z ->
  blank text = false ->
  (length text < fuel)%nat ->
  chunkText_fuel fuel text size overlap = Some [trim text].
Proof.
  intros Hs Hl Hb Hf.
  rewrite chunkText_fuel_returns by (try apply fuel_suffices; lia).
  unfold windows.
  rewrite (iterations_step _ 0) by lia.
  rewrite iterations_done by lia. simpl.
  rewrite window_take_drop by done. simpl. rewrite drop_0.
  rewrite take_ge by lia.
  by rewrite Boolean_trim, Hb.
Qed.

Lemma chunkText_short_text_witness :
  chunkText_fuel 20 (of_string "  hello world ") default_size default_overlap
  = Some [of_string "hello world"].
Proof.
  apply (chunkText_short_text (of_string "  hello world ")
           default_size default_overlap 20);
    [ unfold default_size, default_overlap; lia
    | unfold default_size, default_overlap; simpl; lia
    | reflexivity | simpl; lia ].
Defined.

End ChunkingFurther.

(** ** The sentence chunker and the embedding calls *)

Import BatchEmbedding.

Section EmbeddingFurther.

Lemma split_on_concat (sep : code_unit) (s : jsstring) :
  concat (split_on sep s) = List.filter (fun c => negb (c =? sep)%N) s.
Proof.
  induction s as [|c s IH]; [done|].
  simpl. destruct (c =? sep)%N; simpl; [done|].
  destruct (split_on_pieces sep s) as (first & rest & E & _).
  rewrite E in IH |- *. simpl in *. by rewrite IH.
Qed.

Lemma concat_filter_Boolean (l : list jsstring) :
  concat (List.filter Boolean l) = concat l.
Proof.
  induction l as [|x l IH]; [done|].
  simpl. destruct x; simpl; by rewrite IH.
Qed.

Lemma split_on_absent (sep : code_unit) (s : jsstring) :
  ~ In sep s -> split_on sep s = [s].
Proof.
  induction s as [|c s IH]; [done|]. intros Hnot. simpl.
  destruct (N.eqb_spec c sep) as [->|Hc]; [exfalso; apply Hnot; by left|].
  rewrite IH; [done|]. intros Hin. apply Hnot. by right.
Qed.

(** The sentence chunker loses the full stops and the white space
    around the input, and nothing else: its chunks, put end to end, are
    the trimmed input without its full stops. *)
Theorem generateChunks_concat (input : jsstring) :
  concat (generateChunks input)
  = List.filter (fun c => negb (c =? full_stop)%N) (trim input).
Proof.
  unfold generateChunks.
  by rewrite concat_filter_Boolean, split_on_concat.
Qed.

(** An input without a full stop is one chunk, the input trimmed, or no
    chunk at all when it is blank. *)
Theorem generateChunks_single_sentence (input : jsstring) :
  ~ In full_stop input ->
  generateChunks input = if blank input then [] else [trim input].
Proof.
  intros Hnot. unfold generateChunks.
  rewrite split_on_absent.
  - simpl. rewrite Boolean_trim. by destruct (blank input).
  - intros Hin. apply Hnot.
    destruct (trim_substring input) as (pre & suf & ->).
    apply in_or_app. right. apply in_or_app. by left.
Qed.

Lemma generateChunks_single_sentence_witness :
  generateChunks (of_string "  ola mundo ") = [of_string "ola mundo"]
  /\ generateChunks (of_string "   ") = [].
Proof.
  split.
  - apply (generateChunks_single_sentence (of_string "  ola mundo ")).
    intros H. repeat (destruct H as [H|H]; [discriminate H|]). exact H.
  - apply (generateChunks_single_sentence (of_string "   ")).
    intros H. repeat (destruct H as [H|H]; [discriminate H|]). exact H.
Defined.

Lemma replaceAll_lookup (value : jsstring) (i : nat) :
  replaceAll_newline_space value !! i
  = (fun c => if (c =? 10)%N then 32%N else c) <$> value !! i.
Proof. unfold replaceAll_newline_space. apply list_lookup_fmap. Qed.

Lemma replaceAll_idempotent (value : jsstring) :
  replaceAll_newline_space (replaceAll_newline_space value)
  = replaceAll_newline_space value.
Proof.
  unfold replaceAll_newline_space. rewrite map_map. apply map_ext.
  intros c. destruct (N.eqb_spec c 10); [done|].
  by destruct (N.eqb_spec c 10).
Qed.

(** [generateEmbedding] never shows the model a line feed: the text it
    embeds has the length of the value, a space wherever the value has
    a line feed and the code unit of the value everywhere else. *)
Theorem generateEmbedding_normalizes
    (embed : jsstring -> Ingestion.vector) (value : jsstring) :
  exists text,
    generateEmbedding embed value = embed text
    /\ ~ In 10%N text
    /\ length text = length value
    /\ forall i c, value !! i = Some c ->
         text !! i = Some (if (c =? 10)%N then 32%N else c).
Proof.
  exists (replaceAll_newline_space value). split; [done|]. split; [|split].
  - unfold replaceAll_newline_space. intros H.
    apply in_map_iff in H as (c & Hc & _).
    destruct (N.eqb_spec c 10); [discriminate Hc | done].
  - unfold replaceAll_newline_space. apply length_map.
  - intros i c Hc. by rewrite replaceAll_lookup, Hc.
Qed.

(** A query with line feeds retrieves what the same query with spaces
    in their place retrieves. *)
Theorem findRelevantContent_ignores_line_feeds
    (embed : jsstring -> Ingestion.vector)
    (cosineDistance : Ingestion.vector -> Ingestion.vector -> Q)
    (tbl : list embeddings_row) (userQuery : jsstring)
    (results : list result_row) :
  findRelevantContent embed cosineDistance tbl userQuery results
  <-> findRelevantContent embed cosineDistance tbl
        (replaceAll_newline_space userQuery) results.
Proof.
  unfold findRelevantContent, generateEmbedding.
  by rewrite replaceAll_idempotent.
Qed.

(** When the embedding service answers with one embedding per value,
    [generateEmbeddings] pairs every chunk of the sentence chunker with
    its embedding, in order; when the service rejects, so does it. *)
Theorem generateEmbeddings_pairs_chunks
    (embed_values : list jsstring -> option (list Ingestion.vector))
    (value : jsstring) (embeddings : list Ingestion.vector) :
  embed_values (generateChunks value) = Some embeddings ->
  length embeddings = length (generateChunks value) ->
  exists result,
    generateEmbeddings embed_values value = Some result
    /\ map chunk_content result = map Some (generateChunks value)
    /\ map chunk_embedding result = embeddings.
Proof.
  intros He Hlen. unfold generateEmbeddings. rewrite He.
  eexists. split; [done|].
  change map with (@fmap list _). split.
  - rewrite fmap_imap. apply list_eq. intros i.
    rewrite list_lookup_imap, list_lookup_fmap.
    destruct (embeddings !! i) as [e|] eqn:E; simpl.
    + apply lookup_lt_Some in E. rewrite Hlen in E.
      by destruct (lookup_lt_is_Some_2 _ _ E) as [c ->].
    + apply lookup_ge_None in E. rewrite Hlen in E.
      by rewrite (lookup_ge_None_2 _ _ E).
  - rewrite fmap_imap.
    rewrite (imap_ext _ (const (fun e => e))) by done.
    rewrite imap_const. apply list_fmap_id.
Qed.

Lemma generateEmbeddings_pairs_chunks_witness :
  let embed_values := fun values : list jsstring =>
                        Some (map (fun v => [inject_Z (Z.of_nat (length v))]) values) in
  exists result,
    generateEmbeddings embed_values (of_string "a. bc.") = Some result
    /\ map chunk_content result = [Some (of_string "a"); Some (of_string " bc")]
    /\ map chunk_embedding result = [[1%Q]; [3%Q]].
Proof.
  intros embed_values.
  apply (generateEmbeddings_pairs_chunks embed_values (of_string "a. bc.")
           [[1%Q]; [3%Q]]); reflexivity.
Defined.

End EmbeddingFurther.

(** ** The similarity search *)

Section RetrievalFurther.

Variable embed : jsstring -> Ingestion.vector.
Variable cosineDistance : Ingestion.vector -> Ingestion.vector -> Q.

Lemma where_select_intro (min : Q) (q : Ingestion.vector)
    (tbl : list embeddings_row) (r : embeddings_row) :
  In r tbl -> (min < similarity_to cosineDistance q r)%Q ->
  In (select_row cosineDistance q r) (where_select cosineDistance min q tbl).
Proof.
  intros Hr Hgt. unfold where_select. apply in_map.
  apply filter_In. split; [done|]. by apply gt_spec.
Qed.

(** When no stored row is more similar than 0.3, and so on an empty
    table, the search has one result, the empty list. *)
Theorem findRelevantContent_nothing_relevant
    (tbl : list embeddings_row) (userQuery : jsstring)
    (results : list result_row) :
  (forall r, In r tbl ->
     (similarity_to cosineDistance (generateEmbedding embed userQuery) r
      <= 3 # 10)%Q) ->
  findRelevantContent embed cosineDistance tbl userQuery results
  <-> results = [].
Proof.
  intros Hlow.
  assert (where_select cosineDistance threshold
            (generateEmbedding embed userQuery) tbl = []) as Hnone.
  { destruct (where_select _ _ _ tbl) as [|e l] eqn:E; [done|].
    exfalso. destruct (where_select_In cosineDistance threshold
                         (generateEmbedding embed userQuery) tbl e)
      as (Hgt & r & Hr & _ & Hsim); [rewrite E; by left|].
    apply (Qlt_not_le _ _ Hgt). rewrite Hsim. by apply Hlow. }
  unfold findRelevantContent. rewrite Hnone. split.
  - intros (ordered & [Hp _] & ->).
    apply Permutation_nil in Hp as ->. done.
  - intros ->. exists []. split; [|done]. split; [done | constructor].
Qed.

(** When some stored row is more similar than 0.3, no result of the
    search is empty, and the first entry of a result is as similar to
    the query as any row of the table. *)
Theorem findRelevantContent_best_first
    (tbl : list embeddings_row) (userQuery : jsstring)
    (results : list result_row) (r : embeddings_row) :
  In r tbl ->
  (3 # 10 < similarity_to cosineDistance (generateEmbedding embed userQuery) r)%Q ->
  findRelevantContent embed cosineDistance tbl userQuery results ->
  exists e rest,
    results = e :: rest
    /\ Forall (fun r' =>
                 (similarity_to cosineDistance
                    (generateEmbedding embed userQuery) r' <= similarity e)%Q)
              tbl.
Proof.
  intros Hr Hgt (ordered & [Hp Hs] & ->).
  set (q := generateEmbedding embed userQuery) in *.
  assert (forall x, In x (where_select cosineDistance threshold q tbl) ->
                    In x ordered) as Hin.
  { intros x Hx. apply list_elem_of_In. rewrite <- Hp.
    by apply list_elem_of_In. }
  destruct ordered as [|e ordered].
  { by destruct (Hin _ (where_select_intro threshold q tbl r Hr Hgt)). }
  exists e, (take 3 ordered). split; [done|].
  apply StronglySorted_cons in Hs as [He _].
  assert (3 # 10 < similarity e)%Q as Hegt.
  { apply (where_select_In cosineDistance threshold q tbl e).
    apply list_elem_of_In. rewrite Hp. left. }
  apply List.Forall_forall. intros r' Hr'.
  destruct (Qlt_le_dec (3 # 10) (similarity_to cosineDistance q r'))
    as [Hq|Hq].
  - destruct (Hin _ (where_select_intro threshold q tbl r' Hr' Hq))
      as [E|Hx]; [rewrite E; apply Qle_refl|].
    rewrite Forall_forall in He.
    apply (He (select_row cosineDistance q r')). by apply list_elem_of_In.
  - apply Qlt_le_weak. by apply (Qle_lt_trans _ (3 # 10)).
Qed.

End RetrievalFurther.

Lemma findRelevantContent_nothing_relevant_witness :
  let tbl := [scenario_row "C" (8 # 10); scenario_row "F" (9 # 10)] in
  findRelevantContent scenario_embed scenario_distance tbl [] [].
Proof.
  intros tbl.
  apply (findRelevantContent_nothing_relevant
           scenario_embed scenario_distance tbl [] []); [|reflexivity].
  intros r [<-|[<-|[]]]; by apply Qle_bool_iff.
Defined.

Lemma findRelevantContent_best_first_witness :
  let tbl := [scenario_row "B" (5 # 10); scenario_row "A" (1 # 10);
              scenario_row "C" (8 # 10)] in
  exists e rest,
    findRelevantContent_run scenario_embed scenario_distance tbl [] = e :: rest
    /\ Forall (fun r' => (similarity_to scenario_distance [] r' <= similarity e)%Q)
              tbl.
Proof.
  intros tbl.
  apply (findRelevantContent_best_first scenario_embed scenario_distance
           tbl [] _ (scenario_row "A" (1 # 10))).
  - right. by left.
  - by apply gt_spec.
  - apply run_is_result.
Defined.

(** ** Ingestion: rows and blank texts *)

Section IngestFurther.

Lemma make_rows_lookup (env : environment) (args : ingest_args)
    (vectors : list vector) (attempt : nat) (chunks : list jsstring)
    (idx : nat) (r : embedding_row) :
  make_rows env args vectors attempt chunks !! idx = Some r ->
  exists chunk, chunks !! idx = Some chunk
                /\ r = make_row env args vectors attempt idx chunk.
Proof.
  unfold make_rows. rewrite list_lookup_imap.
  destruct (chunks !! idx) as [chunk|]; simpl; [|done].
  intros [= <-]. by exists chunk.
Qed.

Lemma retry_loop_success_rows (env : environment) (args : ingest_args)
    (chunks : list jsstring) (success : bool) (n : nat) (d : state) :
  retry_loop env args chunks maxAttempts 1 empty_state = (Resolved success n, d) ->
  success = true /\ n = length chunks
  /\ exists earlier vectors attempt,
       table d = earlier ++ make_rows env args vectors attempt chunks.
Proof.
  intros E. unfold_attempts E.
  split_attempts E; try discriminate E;
    injection E as <- <- <-; simpl; (split; [done|]); (split; [done|]);
    first [ by eexists [], _, _
          | by eexists (take _ _), _, _
          | by eexists (take _ _ ++ take _ _), _, _ ].
Qed.

(** Addition of numbers is exact while the sum stays within [2 ^ 53]
    in magnitude. *)
Lemma number_add_exact (a b : Z) :
  (Z.abs (a + b) <= 2 ^ 53)%Z -> number_add a b = (a + b)%Z.
Proof.
  intros H. unfold number_add, round_to_number. cbv zeta.
  by destruct (Z.leb_spec (Z.abs (a + b)) (2 ^ 53)); [|lia].
Qed.

(** When [ingest] succeeds, the rows it wrote last are one row per
    chunk, in order; the row at index [idx] carries the number
    [order + idx], computed as numbers add, which is the integer
    [order + idx] as long as that stays within [2 ^ 53] in magnitude,
    and carries no number when no order was given; and each row carries
    the title and the source URL of the call, null when absent or
    empty. *)
Theorem ingest_success_rows
    (env : environment) (args : ingest_args) (st st' : state)
    (success : bool) (n : nat) :
  ingest env args st = Some (Resolved success n, st') ->
  exists chunks earlier rows,
    chunkText_fuel (S (length (arg_text args))) (arg_text args)
                   default_size default_overlap = Some chunks
    /\ success = true /\ n = length chunks
    /\ table st' = table st ++ earlier ++ rows
    /\ map content rows = chunks
    /\ (forall idx r, rows !! idx = Some r ->
          order r = (fun o => number_add o (Z.of_nat idx)) <$> arg_order args
          /\ (forall o, arg_order args = Some o ->
                (Z.abs (o + Z.of_nat idx) <= 2 ^ 53)%Z ->
                order r = Some (o + Z.of_nat idx)%Z)
          /\ title r = match arg_title args with
                       | Some t => if Boolean t then Some t else None
                       | None => None
                       end
          /\ sourceUrl r = match arg_sourceUrl args with
                           | Some u => if Boolean u then Some u else None
                           | None => None
                           end
          /\ resourceId r = arg_resourceId args).
Proof.
  intros H.
  destruct (ingest_unfold env args st) as (chunks & Hc & Hi).
  rewrite Hi in H.
  destruct (retry_loop env args chunks maxAttempts 1 empty_state)
    as [out d] eqn:E.
  injection H as -> <-.
  apply retry_loop_success_rows in E
    as (-> & -> & earlier & vectors & attempt & Ht).
  exists chunks, earlier, (make_rows env args vectors attempt chunks).
  split; [done|]. split; [done|]. split; [done|].
  split; [simpl; by rewrite Ht|].
  split; [apply make_rows_content|].
  intros idx r Hr. apply make_rows_lookup in Hr as (chunk & _ & ->).
  simpl. split; [by destruct (arg_order args)|].
  split.
  { intros o Ho Hsafe. rewrite Ho. by rewrite number_add_exact. }
  split; [by destruct (arg_title args) as [[|c t]|]|].
  split; [by destruct (arg_sourceUrl args) as [[|c u]|] | done].
Qed.

Lemma ingest_success_rows_witness :
  let env := embedding_fails_before 2 in
  let args := scenario_args (of_string "hello world") in
  exists st',
    ingest env args empty_state = Some (Resolved true 1, st')
    /\ exists chunks earlier rows,
         chunkText_fuel (S (length (arg_text args))) (arg_text args)
                        default_size default_overlap = Some chunks
         /\ true = true /\ 1%nat = length chunks
         /\ table st' = table empty_state ++ earlier ++ rows
         /\ map content rows = chunks
         /\ (forall idx r, rows !! idx = Some r ->
               order r = (fun o => number_add o (Z.of_nat idx)) <$> arg_order args
               /\ (forall o, arg_order args = Some o ->
                     (Z.abs (o + Z.of_nat idx) <= 2 ^ 53)%Z ->
                     order r = Some (o + Z.of_nat idx)%Z)
               /\ title r = match arg_title args with
                            | Some t => if Boolean t then Some t else None
                            | None => None
                            end
               /\ sourceUrl r = match arg_sourceUrl args with
                                | Some u => if Boolean u then Some u else None
                                | None => None
                                end
               /\ resourceId r = arg_resourceId args).
Proof.
  intros env args.
  destruct (ingest env args empty_state) as [[out st']|] eqn:E;
    vm_compute in E; [|discriminate E].
  injection E as <- <-.
  eexists. split; [reflexivity|].
  apply (ingest_success_rows env args empty_state _ true 1).
  vm_compute. reflexivity.
Defined.

Lemma blank_text_no_chunks (text : jsstring) (size overlap : Z) :
  blank text = true ->
  List.filter Boolean (map trim (windows text size overlap)) = [].
Proof.
  intros Hb. rewrite filter_Boolean_trim.
  assert (List.filter (fun w => negb (blank w)) (windows text size overlap) = [])
    as ->; [|done].
  unfold windows. induction (seq _ _) as [|k ks IH]; [done|].
  simpl. rewrite IH.
  assert (blank (window text size overlap k) = true) as ->; [|done].
  unfold blank in *. rewrite forallb_forall in Hb |- *.
  intros c Hc. apply Hb.
  destruct (slice_substring text (Z.of_nat k * (size - overlap))
              (Z.of_nat k * (size - overlap) + size)) as (p & q & E').
  rewrite E'. apply in_or_app. right. apply in_or_app. by left.
Qed.

(** Ingesting a text that is empty or blank writes no row, whatever the
    collaborators answer: the embedding service is asked for the
    embeddings of no chunk, and the call reports success with zero
    chunks inserted as soon as an attempt goes through. *)
Theorem ingest_blank_text
    (env : environment) (args : ingest_args) (st : state) :
  blank (arg_text args) = true ->
  exists out d,
    ingest env args st = Some (out, extend st d)
    /\ table d = []
    /\ (out = Resolved true 0 \/ out = Rejected failure_message)
    /\ ((exists vectors, embedMany env 1 [] = EmbedResolves vectors) ->
        db_insert env 1 [] = InsertResolves ->
        out = Resolved true 0).
Proof.
  intros Hb.
  destruct (ingest_unfold env args st) as (chunks & Hc & Hi).
  rewrite chunkText_enough_fuel in Hc by done.
  rewrite blank_text_no_chunks in Hc by done. injection Hc as <-.
  destruct (retry_loop env args [] maxAttempts 1 empty_state)
    as [out d] eqn:E.
  exists out, d. split; [done|].
  pose proof (retry_loop_rows_from_chunks env args [] out d E) as Hrows.
  split; [|split].
  - destruct (table d) as [|r rows]; [done|].
    apply Forall_cons in Hrows as [[] _].
  - unfold_attempts E. split_attempts E; injection E as <- <-; auto.
  - intros [vectors Hv] Hins. unfold_attempts E.
    rewrite Hv in E. simpl in E.
    unfold make_rows in E. simpl in E. rewrite Hins in E.
    by injection E as <- <-.
Qed.

Lemma ingest_blank_text_witness :
  let args := scenario_args (of_string "   ") in
  blank (arg_text args) = true
  /\ exists d,
       ingest (embedding_fails_before 1) args empty_state
       = Some (Resolved true 0, extend empty_state d)
       /\ table d = [].
Proof.
  intros args. split; [reflexivity|].
  destruct (ingest_blank_text (embedding_fails_before 1) args empty_state
              eq_refl) as (out & d & Hi & Ht & _ & Hok).
  rewrite (Hok ltac:(by eexists) eq_refl) in Hi.
  by exists d.
Defined.

End IngestFurther.

(** ** The chat form *)

Import ChatForm.

Section ChatFormFurther.

Lemma handleSubmit_blank (f : form) :
  blank (input f) = true ->
  input (handleSubmit f) = input f
  /\ pending (handleSubmit f) = pending f
  /\ sent (effects (handleSubmit f)) = sent (effects f).
Proof.
  intros Hb. unfold handleSubmit. rewrite Boolean_trim, Hb. simpl.
  split; [done|]. split; [done|].
  unfold sent. rewrite omap_app. simpl. by rewrite app_nil_r.
Qed.

Lemma handleSubmit_not_blank (f : form) :
  blank (input f) = false ->
  input (handleSubmit f) = input f
  /\ pending (handleSubmit f) = Some []
  /\ sent (effects (handleSubmit f)) = sent (effects f) ++ [input f].
Proof.
  intros Hb. unfold handleSubmit. rewrite Boolean_trim, Hb. simpl.
  split; [done|]. split; [done|].
  unfold sent. rewrite !omap_app. simpl. by rewrite app_nil_r.
Qed.

(** With nothing typed since the last render, a submit followed by a
    render and a second submit sends what the first submit alone sends:
    the first submit sends nothing, or the render in between empties
    the input. Two submits with no render in between both read the
    input of the same render, and both send it when it is not blank. *)
Theorem handleSubmit_twice (f : form) :
  pending f = None ->
  sent (effects (handleSubmit (render (handleSubmit f))))
  = sent (effects (handleSubmit f))
  /\ (blank (input f) = false ->
      sent (effects (handleSubmit (handleSubmit f)))
      = sent (effects f) ++ [input f; input f]).
Proof.
  intros Hp. split.
  - destruct (blank (input f)) eqn:Hb.
    + destruct (handleSubmit_blank f Hb) as (Hi & Hp' & Hs).
      destruct (handleSubmit_blank (render (handleSubmit f))) as (_ & _ & Hs').
      { unfold render. simpl. by rewrite Hp', Hp, Hi. }
      by rewrite Hs'.
    + destruct (handleSubmit_not_blank f Hb) as (Hi & Hp' & Hs).
      destruct (handleSubmit_blank (render (handleSubmit f))) as (_ & _ & Hs').
      { unfold render. simpl. by rewrite Hp'. }
      by rewrite Hs'.
  - intros Hb.
    destruct (handleSubmit_not_blank f Hb) as (Hi & Hp' & Hs).
    destruct (handleSubmit_not_blank (handleSubmit f)) as (_ & _ & Hs');
      [by rewrite Hi|].
    rewrite Hs', Hs, Hi. by rewrite <- app_assoc.
Qed.

Lemma handleSubmit_twice_witness :
  let f := {| input := of_string "hello"; pending := None; effects := [] |} in
  pending f = None
  /\ sent (effects (handleSubmit (render (handleSubmit f)))) = [of_string "hello"]
  /\ sent (effects (handleSubmit (handleSubmit f)))
     = [of_string "hello"; of_string "hello"].
Proof.
  intros f.
  destruct (handleSubmit_twice f eq_refl) as [H1 H2].
  split; [reflexivity|]. split; [exact H1 | exact (H2 eq_refl)].
Defined.

(** Whatever the user types, however often the form is submitted and
    whenever the component renders, every text sent is one the user
    typed, sent as typed, and none is empty or blank. *)
Theorem session_sends_typed_texts (actions : list user_action) :
  Forall (fun text => blank text = false /\ In (Typing text) actions)
         (sent (effects (session actions))).
Proof.
  set (typed := fun (acts : list user_action) (t : jsstring) =>
                  t = [] \/ In (Typing t) acts).
  assert (Forall (fun text => blank text = false /\ In (Typing text) actions)
                 (sent (effects (session actions)))
          /\ typed actions (input (session actions))
          /\ (forall v, pending (session actions) = Some v -> typed actions v))
    as [H _]; [|exact H].
  unfold session. induction actions as [|a actions (IHs & IHi & IHp)] using rev_ind.
  - split; [constructor|]. split; [by left | done].
  - rewrite foldl_app. simpl.
    set (f := foldl act initial_form actions) in *.
    assert (forall t, typed actions t -> typed (actions ++ [a]) t) as Hmono.
    { intros t [->|Hin]; [by left|]. right. apply in_or_app. by left. }
    assert (Forall (fun text => blank text = false
                                /\ In (Typing text) (actions ++ [a]))
                   (sent (effects f))) as IHs'.
    { eapply Forall_impl; [exact IHs|]. intros t [? ?]. split; [done|].
      apply in_or_app. by left. }
    destruct a as [value| |]; simpl.
    + split.
      { unfold sent. rewrite omap_app. simpl. by rewrite app_nil_r. }
      split; [by apply Hmono|].
      intros v [= <-]. right. apply in_or_app. right. by left.
    + destruct (blank (input f)) eqn:Hb.
      * destruct (handleSubmit_blank f Hb) as (-> & -> & ->).
        split; [done|]. split; [by apply Hmono|].
        intros v Hv. by apply Hmono, IHp.
      * destruct (handleSubmit_not_blank f Hb) as (-> & -> & ->).
        split; [|split; [by apply Hmono | intros v [= <-]; by left]].
        apply Forall_app. split; [done|]. constructor; [|done].
        split; [done|].
        destruct (Hmono _ IHi) as [E|Hin]; [|done].
        rewrite E in Hb. discriminate Hb.
    + split; [done|]. split; [|done].
      destruct (pending f) as [v|] eqn:Hv; [|by apply Hmono].
      by apply Hmono, IHp.
Qed.

End ChatFormFurther.

(** ** The shared client *)

Import SupabaseClient.

Section ClientFurther.

Variable client : Type.
Variable createClient : nat -> client.

(** However often [getSupabaseClient] is called, [createClient] runs
    once, at the first call, and every call returns the client built
    then. *)
Theorem getSupabaseClient_singleton (n : nat) :
  calls client createClient (S n) (initial client)
  = (repeat (createClient 0) (S n),
     {| supabase := Some (createClient 0); created := 1 |}).
Proof.
  set (c := createClient 0).
  assert (forall k,
            calls client createClient k {| supabase := Some c; created := 1 |}
            = (repeat c k, {| supabase := Some c; created := 1 |})) as Hrest.
  { induction k as [|k IH]; [done|]. simpl. by rewrite IH. }
  simpl. fold c. by rewrite Hrest.
Qed.

End ClientFurther.

(** ** The server action *)

Import ServerAction.

Section ActionFurther.

Variables input row : Type.
Variable parse : input -> thrown + row.
Variable insert_rejects : row -> option thrown.

Lemma catch_message_not_empty (error : thrown) : catch_message error <> [].
Proof.
  destruct error as [[|c m]|]; intros H; vm_compute in H; discriminate H.
Qed.

(** The action never answers with an empty message, and it leaves the
    table as it was unless it answers with the success message, in
    which case it has appended the validated row and nothing else. A
    row that fails validation never reaches the table. *)
Theorem myAction_outcomes (data : input) (tbl : list row) :
  let (message, tbl') := myAction input row parse insert_rejects data tbl in
  message <> []
  /\ (tbl' = tbl
      \/ exists validated,
           parse data = inr validated
           /\ insert_rejects validated = None
           /\ message = success_message
           /\ tbl' = tbl ++ [validated])
  /\ ((exists error, parse data = inl error) -> tbl' = tbl).
Proof.
  unfold myAction.
  destruct (parse data) as [error|validated] eqn:Hp.
  - split; [apply catch_message_not_empty|]. split; [by left | done].
  - destruct (insert_rejects validated) as [error|] eqn:Hi.
    + split; [apply catch_message_not_empty|]. split; [by left | done].
    + split; [done|]. split; [right; by exists validated|].
      by intros [error [=]].
Qed.

End ActionFurther.

(** ** Deleting conversations *)

Import RowSecurity.

Section SchemaFurther.

Lemma delete_conversation_step (db : database) (cid : string) :
  step db (DeleteConversation cid)
  = {| conversations := delete cid (conversations db);
       messages := filter (fun km => conversation_id km.2 ≠ cid) (messages db) |}.
Proof. done. Qed.

(** Deletions of conversations commute, and deleting a conversation a
    second time changes nothing. *)
Theorem delete_conversations_commute (db : database) (a b : string) :
  step (step db (DeleteConversation a)) (DeleteConversation b)
  = step (step db (DeleteConversation b)) (DeleteConversation a)
  /\ step (step db (DeleteConversation a)) (DeleteConversation a)
     = step db (DeleteConversation a).
Proof.
  rewrite !delete_conversation_step. simpl. split; f_equal.
  - apply map_eq. intros i.
    rewrite !lookup_delete.
    destruct (decide (a = i)), (decide (b = i)); done.
  - apply map_eq. intros i. apply option_eq. intros m.
    rewrite !map_lookup_filter_Some. simpl. tauto.
  - apply map_eq. intros i.
    rewrite !lookup_delete. destruct (decide (a = i)); done.
  - apply map_eq. intros i. apply option_eq. intros m.
    rewrite !map_lookup_filter_Some. simpl. tauto.
Qed.

(** ** Row level security *)

Lemma owns_spec (uid : string) (db : database) (cid : string) :
  owns uid db cid = true
  <-> exists c, conversations db !! cid = Some c /\ user_id c = uid.
Proof.
  unfold owns. destruct (conversations db !! cid) as [c|].
  - rewrite bool_decide_eq_true. split; [by exists c | by intros (? & [= <-] & ?)].
  - split; [done | by intros (? & ? & _)].
Qed.

(** Under the [SELECT] policy a message is shown to one user only, the
    owner of its conversation. *)
Theorem visible_messages_owner (db : database) (mid : string) (m : message) :
  fk_holds db -> messages db !! mid = Some m ->
  exists c,
    conversations db !! conversation_id m = Some c
    /\ forall uid, visible_messages uid db !! mid = Some m <-> uid = user_id c.
Proof.
  intros Hfk Hm. destruct (Hfk mid m Hm) as [c Hc].
  exists c. split; [done|]. intros uid.
  unfold visible_messages. rewrite map_lookup_filter_Some. simpl.
  rewrite owns_spec. split.
  - intros (_ & c' & Hc' & <-). congruence.
  - intros ->. split; [done|]. by exists c.
Qed.

Lemma visible_messages_owner_witness :
  let c := {| user_id := "u1"; conv_title := None;
              conv_created_at := 0; conv_updated_at := 0 |} in
  let m := {| conversation_id := "c1"; role := "user"; msg_content := "oi";
              tool_calls := None; tool_results := None; msg_created_at := 0 |} in
  let db := run [InsertConversation "c1" c; InsertMessage "m1" m] empty_database in
  fk_holds db /\ messages db !! "m1" = Some m
  /\ exists c',
       conversations db !! conversation_id m = Some c'
       /\ forall uid, visible_messages uid db !! "m1" = Some m <-> uid = user_id c'.
Proof.
  intros c m db.
  assert (fk_holds db) as Hfk by apply run_preserves_fk, fk_holds_empty.
  assert (messages db !! "m1" = Some m) as Hm by (by vm_compute).
  split; [exact Hfk|]. split; [exact Hm|].
  exact (visible_messages_owner db "m1" m Hfk Hm).
Defined.

(** A request of one user leaves the conversations of the other users,
    and the messages outside the user's own conversations, exactly as
    they were: none is added, removed or changed. *)
Theorem exec_as_isolation (uid : string) (r : request) (db db' : database) :
  exec_as uid r db = Some db' ->
  (forall cid c, user_id c <> uid ->
     conversations db' !! cid = Some c <-> conversations db !! cid = Some c)
  /\ (forall mid m, owns uid db (conversation_id m) = false ->
        messages db' !! mid = Some m <-> messages db !! mid = Some m).
Proof.
  intros He.
  destruct r as [cid0 c0 | cid0 c0 | cid0 | mid0 m0 | mid0 m0 | mid0];
    simpl in He.
  - case_bool_decide as Hu; [|done].
    destruct (conversations db !! cid0) eqn:E0; [done|].
    injection He as <-. simpl. split; [|done].
    intros cid c Hc. destruct (decide (cid0 = cid)) as [<-|Hne].
    + rewrite lookup_insert_eq, E0. split; [|done]. intros [= <-]. done.
    + by rewrite lookup_insert_ne.
  - destruct (owns uid db cid0) eqn:Ho; [|by injection He as <-].
    case_bool_decide as Hu; [|done].
    injection He as <-. simpl. split; [|done].
    apply owns_spec in Ho as (c1 & E1 & Hu1).
    intros cid c Hc. destruct (decide (cid0 = cid)) as [<-|Hne].
    + rewrite lookup_insert_eq, E1. split; intros [= <-]; done.
    + by rewrite lookup_insert_ne.
  - destruct (owns uid db cid0) eqn:Ho; [|by injection He as <-].
    injection He as <-. simpl.
    pose proof Ho as Ho'. apply owns_spec in Ho' as (c1 & E1 & Hu1).
    split.
    + intros cid c Hc. destruct (decide (cid0 = cid)) as [<-|Hne].
      * rewrite lookup_delete_eq, E1. split; [done|]. intros [= <-]. done.
      * by rewrite lookup_delete_ne.
    + intros mid m Hm. rewrite map_lookup_filter_Some. simpl.
      split; [by intros [? _]|]. intros H. split; [done|].
      intros Heq. rewrite Heq in Hm. congruence.
  - destruct (owns uid db (conversation_id m0)) eqn:Ho; [|done].
    destruct (messages db !! mid0) eqn:E0; [done|].
    destruct (conversations db !! conversation_id m0); [|done].
    injection He as <-. simpl. split; [done|].
    intros mid m Hm. destruct (decide (mid0 = mid)) as [<-|Hne].
    + rewrite lookup_insert_eq, E0. split; [|done]. intros [= <-]. congruence.
    + by rewrite lookup_insert_ne.
  - by injection He as <-.
  - destruct (messages db !! mid0) as [m0|] eqn:E0; [|by injection He as <-].
    destruct (owns uid db (conversation_id m0)) eqn:Ho; [|by injection He as <-].
    injection He as <-. simpl. split; [done|].
    intros mid m Hm. destruct (decide (mid0 = mid)) as [<-|Hne].
    + rewrite lookup_delete_eq, E0. split; [done|]. intros [= <-]. congruence.
    + by rewrite lookup_delete_ne.
Qed.

Lemma exec_as_isolation_witness :
  let c (u : string) := {| user_id := u; conv_title := None;
                           conv_created_at := 0; conv_updated_at := 0 |} in
  let m := {| conversation_id := "c1"; role := "user"; msg_content := "oi";
              tool_calls := None; tool_results := None; msg_created_at := 0 |} in
  let db := run [InsertConversation "c1" (c "u1"); InsertMessage "m1" m]
                empty_database in
  let db' := run [InsertConversation "c1" (c "u1"); InsertMessage "m1" m;
                  InsertConversation "c2" (c "u2")] empty_database in
  exec_as "u2" (InsertOwnConversation "c2" (c "u2")) db = Some db'
  /\ (forall cid c0, user_id c0 <> "u2" ->
        conversations db' !! cid = Some c0 <-> conversations db !! cid = Some c0)
  /\ (forall mid m0, owns "u2" db (conversation_id m0) = false ->
        messages db' !! mid = Some m0 <-> messages db !! mid = Some m0).
Proof.
  intros c m db db'.
  assert (exec_as "u2" (InsertOwnConversation "c2" (c "u2")) db = Some db')
    as He by (by vm_compute).
  split; [exact He|].
  exact (exec_as_isolation "u2" _ db db' He).
Defined.

(** No request rewrites a message: after a request, a message of the
    table is as it was or is gone. *)
Theorem exec_as_messages_immutable
    (uid : string) (r : request) (db db' : database)
    (mid : string) (m : message) :
  exec_as uid r db = Some db' ->
  messages db !! mid = Some m ->
  messages db' !! mid = Some m \/ messages db' !! mid = None.
Proof.
  intros He Hm.
  destruct r as [cid0 c0 | cid0 c0 | cid0 | mid0 m0 | mid0 m0 | mid0];
    simpl in He.
  - case_bool_decide; [|done].
    destruct (conversations db !! cid0); [done|]. injection He as <-. by left.
  - destruct (owns uid db cid0); [|injection He as <-; by left].
    case_bool_decide; [|done]. injection He as <-. by left.
  - destruct (owns uid db cid0); [|injection He as <-; by left].
    injection He as <-. simpl.
    destruct (decide (conversation_id m = cid0)) as [Heq|Hne].
    + right. apply map_lookup_filter_None. right. intros m' Hm'. simpl.
      rewrite Hm in Hm'. injection Hm' as <-. by intros ?.
    + left. by apply map_lookup_filter_Some.
  - destruct (owns uid db (conversation_id m0)); [|done].
    destruct (messages db !! mid0) eqn:E0; [done|].
    destruct (conversations db !! conversation_id m0); [|done].
    injection He as <-. simpl. left.
    rewrite lookup_insert_ne; [done|]. intros ->. congruence.
  - injection He as <-. by left.
  - destruct (messages db !! mid0) as [m0|] eqn:E0; [|injection He as <-; by left].
    destruct (owns uid db (conversation_id m0)); [|injection He as <-; by left].
    injection He as <-. simpl.
    destruct (decide (mid0 = mid)) as [<-|Hne].
    + right. apply lookup_delete_eq.
    + left. by rewrite lookup_delete_ne.
Qed.

Lemma exec_as_messages_immutable_witness :
  let c := {| user_id := "u1"; conv_title := None;
              conv_created_at := 0; conv_updated_at := 0 |} in
  let m (text : string) :=
    {| conversation_id := "c1"; role := "user"; msg_content := text;
       tool_calls := None; tool_results := None; msg_created_at := 0 |} in
  let db := run [InsertConversation "c1" c; InsertMessage "m1" (m "oi")]
                empty_database in
  exists db',
    exec_as "u1" (UpdateOwnMessage "m1" (m "tchau")) db = Some db'
    /\ (messages db' !! "m1" = Some (m "oi") \/ messages db' !! "m1" = None).
Proof.
  intros c m db. exists db. split; [reflexivity|].
  apply (exec_as_messages_immutable "u1" (UpdateOwnMessage "m1" (m "tchau")) db db);
    by vm_compute.
Defined.

(** Requests under the policies keep every message attached to an
    existing conversation. *)
Theorem exec_as_preserves_fk (uid : string) (r : request) (db db' : database) :
  fk_holds db -> exec_as uid r db = Some db' -> fk_holds db'.
Proof.
  intros Hfk He.
  destruct r as [cid0 c0 | cid0 c0 | cid0 | mid0 m0 | mid0 m0 | mid0];
    cbn [exec_as] in He.
  - case_bool_decide; [|done]. by apply (exec_preserves_fk _ _ _ Hfk He).
  - destruct (owns uid db cid0) eqn:Ho; [|by injection He as <-].
    case_bool_decide; [|done]. injection He as <-.
    intros i m Hm. simpl in *.
    destruct (decide (cid0 = conversation_id m)) as [->|Hne].
    + rewrite lookup_insert_eq. by eexists.
    + rewrite lookup_insert_ne by done. by apply (Hfk i).
  - destruct (owns uid db cid0); [|by injection He as <-].
    by apply (exec_preserves_fk _ _ _ Hfk He).
  - destruct (owns uid db (conversation_id m0)); [|done].
    by apply (exec_preserves_fk _ _ _ Hfk He).
  - by injection He as <-.
  - destruct (messages db !! mid0) as [m0|]; [|by injection He as <-].
    destruct (owns uid db (conversation_id m0)); [|by injection He as <-].
    by apply (exec_preserves_fk _ _ _ Hfk He).
Qed.

Lemma exec_as_preserves_fk_witness :
  let c := {| user_id := "u1"; conv_title := None;
              conv_created_at := 0; conv_updated_at := 0 |} in
  let db := run [InsertConversation "c1" c] empty_database in
  fk_holds db
  /\ exec_as "u1" (DeleteOwnConversation "c1") db = Some empty_database
  /\ fk_holds empty_database.
Proof.
  intros c db.
  assert (fk_holds db) as Hfk by apply run_preserves_fk, fk_holds_empty.
  assert (exec_as "u1" (DeleteOwnConversation "c1") db = Some empty_database)
    as He by (by vm_compute).
  split; [exact Hfk|]. split; [exact He|].
  exact (exec_as_preserves_fk "u1" (DeleteOwnConversation "c1") db
           empty_database Hfk He).
Defined.

End SchemaFurther.

(** ** The chat page *)

Import ChatPage.

Section ChatPageFurther.

Variable isToolUIPart : ui_part -> bool.
Variable getToolName : ui_part -> jsstring.

(** The two ways in which the page picks the last element that
    satisfies a test, [[...xs].reverse().find(p)] and
    [xs.filter(p).slice(-1)[0]], pick the same element. *)
Lemma reverse_find_filter_last {A} (p : A -> bool) (xs : list A) :
  reverse_find p xs = filter_last p xs.
Proof.
  unfold reverse_find, filter_last.
  induction xs as [|x xs IH] using rev_ind; [done|].
  rewrite rev_unit, List.filter_app. simpl.
  destruct (p x); simpl.
  - by rewrite last_snoc.
  - by rewrite app_nil_r.
Qed.

(** In a conversation without system messages, the message that the
    page renders as the assistant's answer is the last assistant
    message, the one in which it looks for a running tool. *)
Theorem lastAssistantMessage_is_last_assistant (messages : list ui_message) :
  Forall (fun m => message_role m <> RoleSystem) messages ->
  lastAssistantMessage messages
  = reverse_find (fun m => role_eqb (message_role m) RoleAssistant) messages.
Proof.
  intros Hns. rewrite reverse_find_filter_last.
  unfold lastAssistantMessage, filter_last. f_equal.
  apply filter_ext_in. intros m Hm.
  rewrite List.Forall_forall in Hns. specialize (Hns m Hm).
  by destruct (message_role m).
Qed.

Lemma lastAssistantMessage_is_last_assistant_witness :
  let msg (r : ui_role) (i : string) :=
    {| message_id := of_string i; message_role := r; message_parts := [] |} in
  let messages := [msg RoleUser "1"; msg RoleAssistant "2"; msg RoleUser "3"] in
  lastAssistantMessage messages = Some (msg RoleAssistant "2").
Proof.
  intros msg messages.
  rewrite (lastAssistantMessage_is_last_assistant messages); [reflexivity|].
  repeat constructor; discriminate.
Defined.

Lemma is_pending_names_tool (part : ui_part) :
  is_pending isToolUIPart part = true ->
  is_dynamic_tool part = true \/ isToolUIPart part = true.
Proof.
  unfold is_pending. destruct (is_dynamic_tool part); [by left|].
  destruct (isToolUIPart part); [by right | done].
Qed.

Lemma currentToolCall_None (messages : list ui_message) :
  currentToolCall isToolUIPart getToolName messages = None
  <-> forall m,
        reverse_find (fun m => role_eqb (message_role m) RoleAssistant) messages
        = Some m ->
        Forall (fun part => is_pending isToolUIPart part = false)
               (message_parts m).
Proof.
  unfold currentToolCall.
  destruct (reverse_find _ messages) as [m|]; [|by split].
  destruct (reverse_find (is_pending isToolUIPart) (message_parts m))
    as [part|] eqn:E; unfold reverse_find in E.
  - apply find_some in E as [Hin Hp]. apply in_rev in Hin.
    split.
    + destruct (is_pending_names_tool part Hp) as [-> | Ht]; [done|].
      destruct (is_dynamic_tool part); [done|]. by rewrite Ht.
    + intros H. specialize (H m eq_refl).
      rewrite List.Forall_forall in H. rewrite (H part Hin) in Hp. done.
  - split; [|done]. intros _ m' [= <-].
    apply List.Forall_forall. intros part Hin.
    apply (find_none _ _ E). by apply in_rev in Hin.
Qed.

(** The page stops showing the loading state exactly when the request
    is neither submitted nor streaming and no tool part of the last
    assistant message is unfinished; a pending tool part always has a
    name to show. *)
Theorem isAwaitingResponse_false (status : chat_status)
    (messages : list ui_message) :
  isAwaitingResponse isToolUIPart getToolName status messages = false
  <-> (status = Ready \/ status = StatusError)
      /\ forall m,
           reverse_find (fun m => role_eqb (message_role m) RoleAssistant)
                        messages = Some m ->
           Forall (fun part => is_pending isToolUIPart part = false)
                  (message_parts m).
Proof.
  rewrite <- currentToolCall_None. unfold isAwaitingResponse.
  destruct status;
    destruct (currentToolCall isToolUIPart getToolName messages);
    split; try done; try (intros [[?|?] ?]; done); auto.
Qed.

End ChatPageFurther.

(** Beyond [2 ^ 53] the numbering of the rows rounds as numbers do. *)
Example number_add_rounds :
  number_add (2 ^ 53) 1 = (2 ^ 53)%Z
  /\ number_add (2 ^ 53) 2 = (2 ^ 53 + 2)%Z
  /\ number_add (2 ^ 53) 3 = (2 ^ 53 + 4)%Z
  /\ number_add (- 2 ^ 54) (-6) = (- (2 ^ 54 + 8))%Z.
Proof. repeat split; reflexivity. Qed.

(** A typed text is sent once the component has rendered it. *)
Example session_example :
  sent (effects (session [Typing (of_string "hi"); Render; Submit; Render; Submit]))
  = [of_string "hi"]
  /\ sent (effects (session [Typing (of_string "hi"); Submit])) = [].
Proof. split; reflexivity. Qed.
